(** * The libev adapter of nats.c: a shallow embedding and its properties

    The repository ships two variants of the adapter that plugs a NATS
    connection into a [libev] event loop:

    - the first one ([Module Idle]) keeps the write interest in an [ev_idle]
      watcher and sends the [keepActive] async watcher after every toggle;
    - the second one ([Module Io]) uses two [ev_io] watchers that share one
      callback, which dispatches on the [revents] bitmask.

    Both are embedded here over one model of the memory and of the reactor:
    a heap of adapter records, the set of watchers the reactor has started,
    an oracle for [malloc], and the trace of every call that leaves the
    adapter (libc, libev, the client's hooks).

    libev itself is not part of the repository. Its functions are modelled
    after its manual: [ev_init] leaves a watcher inactive, [ev_TYPE_start]
    on an active watcher and [ev_TYPE_stop] on an inactive one do nothing,
    [ev_io_set] stores the descriptor and the event mask, [ev_idle_set]
    does nothing, and [ev_async_send] marks the watcher as sent until the
    loop has handled it. *)

From stdpp Require Import gmap list.

(** ** Handles and constants *)

Definition addr := positive.

(** A C pointer to an adapter record: [None] is [NULL]. *)
Definition ptr := option addr.

(** [struct ev_loop *] and [natsConnection *] are opaque handles. *)
Definition ev_loop := N.
Definition natsConnection := N.
Definition natsSock := Z.

Inductive natsStatus := NATS_OK | NATS_NO_MEMORY.

(** The event bits of [ev.h]. *)
Definition EV_READ : Z := 0x01.
Definition EV_WRITE : Z := 0x02.
Definition EV__IOFDSET : Z := 0x80.
Definition EV_IDLE : Z := 0x2000.
Definition EV_ASYNC : Z := 0x80000.
Definition EV_ERROR : Z := 0x80000000.

(** The three watchers embedded in [natsLibevEvents]; a pointer such as
    [&nle->read] is the pair of the record's address and the member. *)
Inductive member := m_read | m_write | m_keepActive.

Global Instance member_eq_dec : EqDecision member.
Proof. solve_decision. Defined.

Global Instance member_countable : Countable member.
Proof.
  refine (inj_countable'
    (λ m, match m with m_read => 0%nat | m_write => 1%nat | m_keepActive => 2%nat end)
    (λ n, match n with 0%nat => m_read | 1%nat => m_write | _ => m_keepActive end) _).
  by intros [].
Defined.

Definition wptr : Type := addr * member.

(** What the reactor holds for a started watcher: the loop it was started
    on and the watcher's address. *)
Definition reg : Type := ev_loop * wptr.

(** The callbacks that the adapters hand to [ev_init]. *)
Inductive callback :=
| cb_ProcessReadEvent
| cb_ProcessWriteEvent
| cb_ProcessEvent
| cb_keepAlive.

(** ** libev watchers *)

Record ev_io := mk_io {
  io_active : bool;
  io_cb : callback;
  io_data : ptr;
  io_fd : Z;
  io_events : Z }.

Record ev_idle := mk_idle {
  idle_active : bool;
  idle_cb : callback;
  idle_data : ptr }.

Record ev_async := mk_async {
  async_active : bool;
  async_cb : callback;
  async_sent : bool }.

Definition io_set_active (b : bool) (w : ev_io) : ev_io :=
  mk_io b (io_cb w) (io_data w) (io_fd w) (io_events w).
Definition io_set_data (d : ptr) (w : ev_io) : ev_io :=
  mk_io (io_active w) (io_cb w) d (io_fd w) (io_events w).
Definition idle_set_active (b : bool) (w : ev_idle) : ev_idle :=
  mk_idle b (idle_cb w) (idle_data w).
Definition idle_set_data (d : ptr) (w : ev_idle) : ev_idle :=
  mk_idle (idle_active w) (idle_cb w) d.
Definition async_set_active (b : bool) (w : ev_async) : ev_async :=
  mk_async b (async_cb w) (async_sent w).
Definition async_set_sent (b : bool) (w : ev_async) : ev_async :=
  mk_async (async_active w) (async_cb w) b.

(** ** The trace of outgoing calls *)

Inductive event :=
| Ev_malloc (r : ptr)
| Ev_free (p : addr)
| Ev_io_set (w : wptr) (fd : Z) (events : Z)
| Ev_io_start (l : ev_loop) (w : wptr) (fd : Z) (events : Z)
| Ev_io_stop (l : ev_loop) (w : wptr) (fd : Z) (events : Z)
| Ev_idle_start (l : ev_loop) (w : wptr)
| Ev_idle_stop (l : ev_loop) (w : wptr)
| Ev_async_start (l : ev_loop) (w : wptr)
| Ev_async_send (l : ev_loop) (w : wptr)
| Ev_async_stop (l : ev_loop) (w : wptr)
| Hook_ProcessReadEvent (nc : natsConnection)
| Hook_ProcessWriteEvent (nc : natsConnection).

Global Instance event_eq_dec : EqDecision event.
Proof. solve_decision. Defined.

(** ** The world: heap, reactor, allocator oracle, trace *)

Record World (T : Type) := mkWorld {
  heap : gmap addr T;
  registry : gset reg;
  oracle : list bool;
  trace : list event }.
Arguments mkWorld {T}.
Arguments heap {T}.
Arguments registry {T}.
Arguments oracle {T}.
Arguments trace {T}.

Definition empty_world {T} (o : list bool) : World T := mkWorld ∅ ∅ o [].

(** A member of the record of type [T] holding a watcher of type [W]. *)
Record lens (T W : Type) := mkLens {
  mem : member;
  get : T → W;
  put : W → T → T }.
Arguments mkLens {T W}.
Arguments mem {T W}.
Arguments get {T W}.
Arguments put {T W}.

(** Computations over the world; [None] is undefined behaviour (a
    dereference of [NULL] or of a freed record). *)
Definition M (T A : Type) : Type := World T → option (A * World T).

Global Instance M_ret {T} : MRet (M T) := λ A a σ, Some (a, σ).
Global Instance M_bind {T} : MBind (M T) :=
  λ A B k m σ, match m σ with
               | Some (a, σ') => k a σ'
               | None => None
               end.

Section Memory.
Context {T : Type}.

(** Reading through a pointer gives the address and the record. *)
Definition load (p : ptr) : M T (addr * T) :=
  λ σ, match p with
       | Some a => match heap σ !! a with
                   | Some s => Some ((a, s), σ)
                   | None => None
                   end
       | None => None
       end.

Definition store (a : addr) (s : T) : M T unit :=
  λ σ, Some (tt, mkWorld (<[a := s]> (heap σ)) (registry σ) (oracle σ) (trace σ)).

Definition emit (e : event) : M T unit :=
  λ σ, Some (tt, mkWorld (heap σ) (registry σ) (oracle σ) (trace σ ++ [e])).

Definition register (r : reg) : M T unit :=
  λ σ, Some (tt, mkWorld (heap σ) ({[ r ]} ∪ registry σ) (oracle σ) (trace σ)).

Definition unregister (r : reg) : M T unit :=
  λ σ, Some (tt, mkWorld (heap σ) (registry σ ∖ {[ r ]}) (oracle σ) (trace σ)).

(** [malloc]: the oracle decides whether the next allocation succeeds;
    the new block holds [init] (its contents are never read before
    they are written). *)
Definition malloc (init : T) : M T ptr :=
  λ σ, match oracle σ with
       | true :: o =>
           let a := fresh (dom (heap σ)) in
           Some (Some a, mkWorld (<[a := init]> (heap σ)) (registry σ) o
                                 (trace σ ++ [Ev_malloc (Some a)]))
       | _ :: o =>
           Some (None, mkWorld (heap σ) (registry σ) o (trace σ ++ [Ev_malloc None]))
       | [] =>
           Some (None, mkWorld (heap σ) (registry σ) [] (trace σ ++ [Ev_malloc None]))
       end.

Definition free (a : addr) : M T unit :=
  λ σ, match heap σ !! a with
       | Some _ => Some (tt, mkWorld (delete a (heap σ)) (registry σ) (oracle σ)
                                     (trace σ ++ [Ev_free a]))
       | None => None
       end.
End Memory.

Section LibevWatchers.
Context {T : Type}.

(** [ev_init (w, cb)]: the watcher is inactive and carries [cb]. *)
Definition ev_io_init (a : addr) (F : lens T ev_io) (cb : callback) : M T unit :=
  '(_, s) ← load (Some a);
  store a (put F (mk_io false cb (io_data (get F s)) (io_fd (get F s))
                        (io_events (get F s))) s).

Definition ev_idle_init (a : addr) (F : lens T ev_idle) (cb : callback) : M T unit :=
  '(_, s) ← load (Some a);
  store a (put F (mk_idle false cb (idle_data (get F s))) s).

(** [ev_async_init (w, cb)] is [ev_init] followed by [ev_async_set],
    which clears [sent]. *)
Definition ev_async_init (a : addr) (F : lens T ev_async) (cb : callback) : M T unit :=
  '(_, s) ← load (Some a);
  store a (put F (mk_async false cb false) s).

(** [ev_io_set (w, fd, events)] *)
Definition ev_io_set (a : addr) (F : lens T ev_io) (fd events : Z) : M T unit :=
  '(_, s) ← load (Some a);
  emit (Ev_io_set (a, mem F) fd events);;
  store a (put F (mk_io (io_active (get F s)) (io_cb (get F s)) (io_data (get F s))
                        fd (Z.lor events EV__IOFDSET)) s).

(** [ev_idle_set (w)] expands to nothing. *)
Definition ev_idle_set (a : addr) (F : lens T ev_idle) : M T unit := mret tt.

(** Starting an active watcher and stopping an inactive one do nothing. *)
Definition ev_io_start (l : ev_loop) (a : addr) (F : lens T ev_io) : M T unit :=
  '(_, s) ← load (Some a);
  emit (Ev_io_start l (a, mem F) (io_fd (get F s)) (io_events (get F s)));;
  if io_active (get F s) then mret tt
  else (store a (put F (io_set_active true (get F s)) s);;
        register (l, (a, mem F))).

Definition ev_io_stop (l : ev_loop) (a : addr) (F : lens T ev_io) : M T unit :=
  '(_, s) ← load (Some a);
  emit (Ev_io_stop l (a, mem F) (io_fd (get F s)) (io_events (get F s)));;
  if io_active (get F s) then
    (store a (put F (io_set_active false (get F s)) s);;
     unregister (l, (a, mem F)))
  else mret tt.

Definition ev_idle_start (l : ev_loop) (a : addr) (F : lens T ev_idle) : M T unit :=
  '(_, s) ← load (Some a);
  emit (Ev_idle_start l (a, mem F));;
  if idle_active (get F s) then mret tt
  else (store a (put F (idle_set_active true (get F s)) s);;
        register (l, (a, mem F))).

Definition ev_idle_stop (l : ev_loop) (a : addr) (F : lens T ev_idle) : M T unit :=
  '(_, s) ← load (Some a);
  emit (Ev_idle_stop l (a, mem F));;
  if idle_active (get F s) then
    (store a (put F (idle_set_active false (get F s)) s);;
     unregister (l, (a, mem F)))
  else mret tt.

Definition ev_async_start (l : ev_loop) (a : addr) (F : lens T ev_async) : M T unit :=
  '(_, s) ← load (Some a);
  emit (Ev_async_start l (a, mem F));;
  if async_active (get F s) then mret tt
  else (store a (put F (async_set_active true (get F s)) s);;
        register (l, (a, mem F))).

(** [ev_async_send] marks the watcher as sent and wakes the loop up. *)
Definition ev_async_send (l : ev_loop) (a : addr) (F : lens T ev_async) : M T unit :=
  '(_, s) ← load (Some a);
  emit (Ev_async_send l (a, mem F));;
  store a (put F (async_set_sent true (get F s)) s).

Definition ev_async_stop (l : ev_loop) (a : addr) (F : lens T ev_async) : M T unit :=
  '(_, s) ← load (Some a);
  emit (Ev_async_stop l (a, mem F));;
  if async_active (get F s) then
    (store a (put F (async_set_active false (get F s)) s);;
     unregister (l, (a, mem F)))
  else mret tt.

(** What the loop does, on its own thread, with an async watcher that was
    sent: [sent] is cleared ([ev_async_pending] is false again) and the
    watcher's callback runs. *)
Definition ev_async_invoke (a : addr) (F : lens T ev_async) (cb : M T unit) : M T unit :=
  '(_, s) ← load (Some a);
  if async_active (get F s) && async_sent (get F s) then
    (store a (put F (async_set_sent false (get F s)) s);; cb)
  else mret tt.
End LibevWatchers.

(** ** Reading the model *)

(** What a call appended to the trace. *)
Definition emitted {T} (σ σ' : World T) : list event :=
  drop (length (trace σ)) (trace σ').

(** The world a computation leaves (the same world if it is undefined)
    and the value it returns. *)
Definition after {T A} (m : M T A) (σ : World T) : World T :=
  match m σ with
  | Some (_, σ') => σ'
  | None => σ
  end.

Definition value {T A} (m : M T A) (σ : World T) : option A :=
  match m σ with
  | Some (r, _) => Some r
  | None => None
  end.

(** The reactor's registrations after a [start] ([on]) or a [stop] on a
    watcher whose [active] flag was [was]. *)
Definition reg_toggle (on was : bool) (r : reg) (R : gset reg) : gset reg :=
  if was then (if on then R else R ∖ {[ r ]})
  else (if on then {[ r ]} ∪ R else R).

(** Well-formed worlds: the reactor holds exactly the watchers whose
    [active] flag is set, each on the loop stored in its record, and every
    record satisfies [ok] (the back-pointers in the watchers' [data]). *)
Definition wf_gen {T} (loop_of : T → ev_loop) (active_of : member → T → bool)
    (ok : addr → T → Prop) (σ : World T) : Prop :=
  (∀ l a m, (l, (a, m)) ∈ registry σ ↔
            ∃ s, heap σ !! a = Some s ∧ loop_of s = l ∧ active_of m s = true)
  ∧ (∀ a s, heap σ !! a = Some s → ok a s).

(** The loop a libev call is made on and the connection a hook is
    invoked on. *)
Definition event_loop (e : event) : option ev_loop :=
  match e with
  | Ev_io_start l _ _ _ | Ev_io_stop l _ _ _
  | Ev_idle_start l _ | Ev_idle_stop l _
  | Ev_async_start l _ | Ev_async_send l _ | Ev_async_stop l _ => Some l
  | _ => None
  end.

Definition on_loop (l : ev_loop) (es : list event) : Prop :=
  Forall (λ e, ∀ l', event_loop e = Some l' → l' = l) es.

Definition event_conn (e : event) : option natsConnection :=
  match e with
  | Hook_ProcessReadEvent c | Hook_ProcessWriteEvent c => Some c
  | _ => None
  end.

Definition on_conn (c : natsConnection) (es : list event) : Prop :=
  Forall (λ e, ∀ c', event_conn e = Some c' → c' = c) es.

(** The hooks a notification with mask [revents] invokes when the
    callback dispatches on the mask. *)
Definition hooks_of (revents : Z) (c : natsConnection) : list event :=
  (if negb (Z.land revents EV_READ =? 0)%Z then [ Hook_ProcessReadEvent c ] else [])
  ++ (if negb (Z.land revents EV_WRITE =? 0)%Z then [ Hook_ProcessWriteEvent c ] else []).

Definition is_async_send (e : event) : bool :=
  match e with Ev_async_send _ _ => true | _ => false end.



(** The client's calls. *)
Inductive toggle := T_Read (add : bool) | T_Write (add : bool).

Inductive call :=
| Call_Attach (userData : ptr) (l : ev_loop) (c : natsConnection) (socket : natsSock)
| Call_Read (userData : ptr) (add : bool)
| Call_Write (userData : ptr) (add : bool)
| Call_Detach (userData : ptr).

(** What both variants keep for a connection, whatever the kind of the
    write watcher. *)
Record view := mkView {
  v_nc : natsConnection;
  v_loop : ev_loop;
  v_read_active : bool;
  v_read_fd : Z;
  v_read_events : Z;
  v_write_active : bool;
  v_keepActive_active : bool }.

(** ** First variant: [ev_io] read watcher, [ev_idle] write watcher *)

Module Idle.

Record natsLibevEvents := mkEvents {
  nc : natsConnection;
  loop : ev_loop;
  read : ev_io;
  write : ev_idle;
  keepActive : ev_async }.

Definition set_nc (c : natsConnection) (s : natsLibevEvents) :=
  mkEvents c (loop s) (read s) (write s) (keepActive s).
Definition set_loop (l : ev_loop) (s : natsLibevEvents) :=
  mkEvents (nc s) l (read s) (write s) (keepActive s).

Definition read_ : lens natsLibevEvents ev_io :=
  mkLens m_read read (λ w s, mkEvents (nc s) (loop s) w (write s) (keepActive s)).
Definition write_ : lens natsLibevEvents ev_idle :=
  mkLens m_write write (λ w s, mkEvents (nc s) (loop s) (read s) w (keepActive s)).
Definition keepActive_ : lens natsLibevEvents ev_async :=
  mkLens m_keepActive keepActive (λ w s, mkEvents (nc s) (loop s) (read s) (write s) w).

(** The contents of a block fresh from [malloc]. *)
Definition uninit : natsLibevEvents :=
  mkEvents 0%N 0%N (mk_io false cb_keepAlive None 0 0) (mk_idle false cb_keepAlive None)
           (mk_async false cb_keepAlive false).

Definition natsLibev_ProcessReadEvent (l : ev_loop) (w : addr * lens natsLibevEvents ev_io)
    (revents : Z) : M natsLibevEvents unit :=
  '(_, s) ← load (Some w.1);
  '(_, nle) ← load (io_data (get w.2 s));
  emit (Hook_ProcessReadEvent (nc nle)).

Definition natsLibev_ProcessWriteEvent (l : ev_loop) (w : addr * lens natsLibevEvents ev_idle)
    (revents : Z) : M natsLibevEvents unit :=
  '(_, s) ← load (Some w.1);
  '(_, nle) ← load (idle_data (get w.2 s));
  emit (Hook_ProcessWriteEvent (nc nle)).

Definition keepAliveCb (l : ev_loop) (w : addr * lens natsLibevEvents ev_async)
    (revents : Z) : M natsLibevEvents unit :=
  mret tt.

Definition ev_io_toggle (l : ev_loop) (a : addr) (w : lens natsLibevEvents ev_io)
    (on : bool) : M natsLibevEvents unit :=
  if on then ev_io_start l a w else ev_io_stop l a w.

Definition ev_idle_toggle (l : ev_loop) (a : addr) (w : lens natsLibevEvents ev_idle)
    (on : bool) : M natsLibevEvents unit :=
  if on then ev_idle_start l a w else ev_idle_stop l a w.

Definition natsLibev_Read (userData : ptr) (add : bool) : M natsLibevEvents natsStatus :=
  '(a, nle) ← load userData;
  ev_io_toggle (loop nle) a read_ add;;
  '(a, nle) ← load userData;
  ev_async_send (loop nle) a keepActive_;;
  mret NATS_OK.

Definition natsLibev_Write (userData : ptr) (add : bool) : M natsLibevEvents natsStatus :=
  '(a, nle) ← load userData;
  ev_idle_toggle (loop nle) a write_ add;;
  '(a, nle) ← load userData;
  ev_async_send (loop nle) a keepActive_;;
  mret NATS_OK.

(** [natsLibev_Attach] takes the contents of [*userData] and returns,
    with the status, the contents it leaves there. *)
Definition natsLibev_Attach (userData : ptr) (libevLoop : ev_loop) (c : natsConnection)
    (socket : natsSock) : M natsLibevEvents (natsStatus * ptr) :=
  nle ← match userData with
        | None =>
            nle ← malloc uninit;
            match nle with
            | None => mret None
            | Some a =>
                '(_, s) ← load nle; store a (set_nc c s);;
                '(_, s) ← load nle; store a (set_loop libevLoop s);;
                ev_async_init a keepActive_ cb_keepAlive;;
                '(_, s) ← load nle; ev_async_start (loop s) a keepActive_;;
                ev_io_init a read_ cb_ProcessReadEvent;;
                '(_, s) ← load nle; store a (put read_ (io_set_data nle (read s)) s);;
                ev_idle_init a write_ cb_ProcessWriteEvent;;
                '(_, s) ← load nle; store a (put write_ (idle_set_data nle (write s)) s);;
                mret nle
            end
        | Some _ =>
            natsLibev_Read userData false;;
            natsLibev_Write userData false;;
            mret userData
        end;
  match nle with
  | None => mret (NATS_NO_MEMORY, userData)
  | Some a =>
      ev_io_set a read_ socket EV_READ;;
      natsLibev_Read nle true;;
      ev_idle_set a write_;;
      mret (NATS_OK, nle)
  end.

Definition natsLibev_Detach (userData : ptr) : M natsLibevEvents natsStatus :=
  '(a, nle) ← load userData;
  natsLibev_Read userData false;;
  natsLibev_Write userData false;;
  '(_, s) ← load userData;
  ev_async_stop (loop s) a keepActive_;;
  free a;;
  mret NATS_OK.


(** *** Derived notions used in the statements *)

(** The socket and event mask a watcher is bound to; only [ev_io]
    watchers have one. *)
Definition binding (m : member) (s : natsLibevEvents) : option (Z * Z) :=
  match m with
  | m_read => Some (io_fd (read s), io_events (read s))
  | _ => None
  end.

Definition do_toggle (p : ptr) (t : toggle) : M natsLibevEvents natsStatus :=
  match t with
  | T_Read b => natsLibev_Read p b
  | T_Write b => natsLibev_Write p b
  end.

Fixpoint do_toggles (p : ptr) (ts : list toggle) : M natsLibevEvents (list natsStatus) :=
  match ts with
  | [] => mret []
  | t :: ts => r ← do_toggle p t; rs ← do_toggles p ts; mret (r :: rs)
  end.

(** A call returns its status and what it leaves in [userData]. *)
Definition do_call (k : call) : M natsLibevEvents (natsStatus * ptr) :=
  match k with
  | Call_Attach u l c fd => natsLibev_Attach u l c fd
  | Call_Read u b => r ← natsLibev_Read u b; mret (r, u)
  | Call_Write u b => r ← natsLibev_Write u b; mret (r, u)
  | Call_Detach u => r ← natsLibev_Detach u; mret (r, u)
  end.

Fixpoint run (ks : list call) : M natsLibevEvents (list (natsStatus * ptr)) :=
  match ks with
  | [] => mret []
  | k :: ks => r ← do_call k; rs ← run ks; mret (r :: rs)
  end.

Definition view_of (s : natsLibevEvents) : view :=
  mkView (nc s) (loop s) (io_active (read s)) (io_fd (read s)) (io_events (read s))
         (idle_active (write s)) (async_active (keepActive s)).

(** The loop thread handling the wake-up of [keepActive]. *)
Definition reactor_wakeup (l : ev_loop) (a : addr) : M natsLibevEvents unit :=
  ev_async_invoke a keepActive_ (keepAliveCb l (a, keepActive_) EV_ASYNC).

(** The [active] flag of a watcher of the record. *)
Definition active (m : member) (s : natsLibevEvents) : bool :=
  match m with
  | m_read => io_active (read s)
  | m_write => idle_active (write s)
  | m_keepActive => async_active (keepActive s)
  end.

(** [read.data] and [write.data] point back to the record. *)
Definition back (a : addr) (s : natsLibevEvents) : Prop :=
  io_data (read s) = Some a ∧ idle_data (write s) = Some a.

Definition wf : World natsLibevEvents → Prop := wf_gen loop active back.

(** The registrations of the three watchers of a record, and, for each
    entry point, the record it leaves and the calls it makes (proved equal
    to what the entry point computes in the section of proofs). *)
Definition rd (a : addr) (s : natsLibevEvents) : reg := (loop s, (a, m_read)).
Definition wr (a : addr) (s : natsLibevEvents) : reg := (loop s, (a, m_write)).
Definition ka (a : addr) (s : natsLibevEvents) : reg := (loop s, (a, m_keepActive)).

Definition Read_state (b : bool) (s : natsLibevEvents) : natsLibevEvents :=
  mkEvents (nc s) (loop s) (io_set_active b (read s)) (write s)
           (async_set_sent true (keepActive s)).

Definition Read_events (a : addr) (b : bool) (s : natsLibevEvents) : list event :=
  [ (if b then Ev_io_start else Ev_io_stop) (loop s) (a, m_read)
      (io_fd (read s)) (io_events (read s));
    Ev_async_send (loop s) (a, m_keepActive) ].

Definition Write_state (b : bool) (s : natsLibevEvents) : natsLibevEvents :=
  mkEvents (nc s) (loop s) (read s) (idle_set_active b (write s))
           (async_set_sent true (keepActive s)).

Definition Write_events (a : addr) (b : bool) (s : natsLibevEvents) : list event :=
  [ (if b then Ev_idle_start else Ev_idle_stop) (loop s) (a, m_write);
    Ev_async_send (loop s) (a, m_keepActive) ].

(** The record after an attach on socket [S]. *)
Definition Attach_state (S : natsSock) (s : natsLibevEvents) : natsLibevEvents :=
  mkEvents (nc s) (loop s)
           (mk_io true (io_cb (read s)) (io_data (read s)) S (Z.lor EV_READ EV__IOFDSET))
           (idle_set_active false (write s))
           (async_set_sent true (keepActive s)).

Definition Attach_tail_events (a : addr) (S : natsSock) (l : ev_loop) : list event :=
  [ Ev_io_set (a, m_read) S EV_READ;
    Ev_io_start l (a, m_read) S (Z.lor EV_READ EV__IOFDSET);
    Ev_async_send l (a, m_keepActive) ].

Definition Reattach_events (a : addr) (S : natsSock) (s : natsLibevEvents) : list event :=
  [ Ev_io_stop (loop s) (a, m_read) (io_fd (read s)) (io_events (read s));
    Ev_async_send (loop s) (a, m_keepActive);
    Ev_idle_stop (loop s) (a, m_write);
    Ev_async_send (loop s) (a, m_keepActive) ] ++ Attach_tail_events a S (loop s).

Definition First_state (a : addr) (l : ev_loop) (c : natsConnection) (S : natsSock)
    : natsLibevEvents :=
  mkEvents c l
           (mk_io true cb_ProcessReadEvent (Some a) S (Z.lor EV_READ EV__IOFDSET))
           (mk_idle false cb_ProcessWriteEvent (Some a))
           (mk_async true cb_keepAlive true).

Definition Detach_events (a : addr) (s : natsLibevEvents) : list event :=
  [ Ev_io_stop (loop s) (a, m_read) (io_fd (read s)) (io_events (read s));
    Ev_async_send (loop s) (a, m_keepActive);
    Ev_idle_stop (loop s) (a, m_write);
    Ev_async_send (loop s) (a, m_keepActive);
    Ev_async_stop (loop s) (a, m_keepActive);
    Ev_free a ].

End Idle.

(** ** Second variant: two [ev_io] watchers, one callback *)

Module Io.

Record natsLibevEvents := mkEvents {
  nc : natsConnection;
  loop : ev_loop;
  read : ev_io;
  write : ev_io;
  keepActive : ev_async }.

Definition set_nc (c : natsConnection) (s : natsLibevEvents) :=
  mkEvents c (loop s) (read s) (write s) (keepActive s).
Definition set_loop (l : ev_loop) (s : natsLibevEvents) :=
  mkEvents (nc s) l (read s) (write s) (keepActive s).

Definition read_ : lens natsLibevEvents ev_io :=
  mkLens m_read read (λ w s, mkEvents (nc s) (loop s) w (write s) (keepActive s)).
Definition write_ : lens natsLibevEvents ev_io :=
  mkLens m_write write (λ w s, mkEvents (nc s) (loop s) (read s) w (keepActive s)).
Definition keepActive_ : lens natsLibevEvents ev_async :=
  mkLens m_keepActive keepActive (λ w s, mkEvents (nc s) (loop s) (read s) (write s) w).

(** The contents of a block fresh from [malloc]. *)
Definition uninit : natsLibevEvents :=
  mkEvents 0%N 0%N (mk_io false cb_keepAlive None 0 0) (mk_io false cb_keepAlive None 0 0)
           (mk_async false cb_keepAlive false).

Definition natsLibev_ProcessEvent (l : ev_loop) (w : addr * lens natsLibevEvents ev_io)
    (revents : Z) : M natsLibevEvents unit :=
  '(_, s) ← load (Some w.1);
  let nle := io_data (get w.2 s) in
  (if negb (Z.land revents EV_READ =? 0)%Z
   then '(_, n) ← load nle; emit (Hook_ProcessReadEvent (nc n))
   else mret tt);;
  (if negb (Z.land revents EV_WRITE =? 0)%Z
   then '(_, n) ← load nle; emit (Hook_ProcessWriteEvent (nc n))
   else mret tt).

Definition keepAliveCb (l : ev_loop) (w : addr * lens natsLibevEvents ev_async)
    (revents : Z) : M natsLibevEvents unit :=
  mret tt.

Definition ev_io_toggle (l : ev_loop) (a : addr) (w : lens natsLibevEvents ev_io)
    (on : bool) : M natsLibevEvents unit :=
  if on then ev_io_start l a w else ev_io_stop l a w.

Definition natsLibev_Read (userData : ptr) (add : bool) : M natsLibevEvents natsStatus :=
  '(a, nle) ← load userData;
  ev_io_toggle (loop nle) a read_ add;;
  mret NATS_OK.

Definition natsLibev_Write (userData : ptr) (add : bool) : M natsLibevEvents natsStatus :=
  '(a, nle) ← load userData;
  ev_io_toggle (loop nle) a write_ add;;
  mret NATS_OK.

Definition natsLibev_Attach (userData : ptr) (libevLoop : ev_loop) (c : natsConnection)
    (socket : natsSock) : M natsLibevEvents (natsStatus * ptr) :=
  nle ← match userData with
        | None =>
            nle ← malloc uninit;
            match nle with
            | None => mret None
            | Some a =>
                '(_, s) ← load nle; store a (set_nc c s);;
                '(_, s) ← load nle; store a (set_loop libevLoop s);;
                ev_async_init a keepActive_ cb_keepAlive;;
                '(_, s) ← load nle; ev_async_start (loop s) a keepActive_;;
                ev_io_init a read_ cb_ProcessEvent;;
                '(_, s) ← load nle; store a (put read_ (io_set_data nle (read s)) s);;
                ev_io_init a write_ cb_ProcessEvent;;
                '(_, s) ← load nle; store a (put write_ (io_set_data nle (write s)) s);;
                mret nle
            end
        | Some _ =>
            '(a, s) ← load userData; ev_io_stop (loop s) a read_;;
            '(a, s) ← load userData; ev_io_stop (loop s) a write_;;
            mret userData
        end;
  match nle with
  | None => mret (NATS_NO_MEMORY, userData)
  | Some a =>
      ev_io_set a read_ socket EV_READ;;
      '(_, s) ← load nle; ev_io_start (loop s) a read_;;
      ev_io_set a write_ socket EV_WRITE;;
      mret (NATS_OK, nle)
  end.

Definition natsLibev_Detach (userData : ptr) : M natsLibevEvents natsStatus :=
  '(a, nle) ← load userData;
  ev_io_stop (loop nle) a read_;;
  '(_, nle) ← load userData;
  ev_io_stop (loop nle) a write_;;
  '(_, nle) ← load userData;
  ev_async_send (loop nle) a keepActive_;;
  '(_, nle) ← load userData;
  ev_async_stop (loop nle) a keepActive_;;
  free a;;
  mret NATS_OK.


(** *** Derived notions used in the statements *)

(** The socket and event mask a watcher is bound to; only [ev_io]
    watchers have one. *)
Definition binding (m : member) (s : natsLibevEvents) : option (Z * Z) :=
  match m with
  | m_read => Some (io_fd (read s), io_events (read s))
  | m_write => Some (io_fd (write s), io_events (write s))
  | m_keepActive => None
  end.

Definition do_toggle (p : ptr) (t : toggle) : M natsLibevEvents natsStatus :=
  match t with
  | T_Read b => natsLibev_Read p b
  | T_Write b => natsLibev_Write p b
  end.

Fixpoint do_toggles (p : ptr) (ts : list toggle) : M natsLibevEvents (list natsStatus) :=
  match ts with
  | [] => mret []
  | t :: ts => r ← do_toggle p t; rs ← do_toggles p ts; mret (r :: rs)
  end.

(** A call returns its status and what it leaves in [userData]. *)
Definition do_call (k : call) : M natsLibevEvents (natsStatus * ptr) :=
  match k with
  | Call_Attach u l c fd => natsLibev_Attach u l c fd
  | Call_Read u b => r ← natsLibev_Read u b; mret (r, u)
  | Call_Write u b => r ← natsLibev_Write u b; mret (r, u)
  | Call_Detach u => r ← natsLibev_Detach u; mret (r, u)
  end.

Fixpoint run (ks : list call) : M natsLibevEvents (list (natsStatus * ptr)) :=
  match ks with
  | [] => mret []
  | k :: ks => r ← do_call k; rs ← run ks; mret (r :: rs)
  end.

Definition view_of (s : natsLibevEvents) : view :=
  mkView (nc s) (loop s) (io_active (read s)) (io_fd (read s)) (io_events (read s))
         (io_active (write s)) (async_active (keepActive s)).

(** The loop thread handling the wake-up of [keepActive]. *)
Definition reactor_wakeup (l : ev_loop) (a : addr) : M natsLibevEvents unit :=
  ev_async_invoke a keepActive_ (keepAliveCb l (a, keepActive_) EV_ASYNC).

(** The [active] flag of a watcher of the record. *)
Definition active (m : member) (s : natsLibevEvents) : bool :=
  match m with
  | m_read => io_active (read s)
  | m_write => io_active (write s)
  | m_keepActive => async_active (keepActive s)
  end.

Definition back (a : addr) (s : natsLibevEvents) : Prop :=
  io_data (read s) = Some a ∧ io_data (write s) = Some a.

Definition wf : World natsLibevEvents → Prop := wf_gen loop active back.

(** The registrations of the three watchers of a record, and, for each
    entry point, the record it leaves and the calls it makes (proved equal
    to what the entry point computes in the section of proofs). *)
Definition rd (a : addr) (s : natsLibevEvents) : reg := (loop s, (a, m_read)).
Definition wr (a : addr) (s : natsLibevEvents) : reg := (loop s, (a, m_write)).
Definition ka (a : addr) (s : natsLibevEvents) : reg := (loop s, (a, m_keepActive)).

Definition Read_state (b : bool) (s : natsLibevEvents) : natsLibevEvents :=
  mkEvents (nc s) (loop s) (io_set_active b (read s)) (write s) (keepActive s).

Definition Read_events (a : addr) (b : bool) (s : natsLibevEvents) : list event :=
  [ (if b then Ev_io_start else Ev_io_stop) (loop s) (a, m_read)
      (io_fd (read s)) (io_events (read s)) ].

Definition Write_state (b : bool) (s : natsLibevEvents) : natsLibevEvents :=
  mkEvents (nc s) (loop s) (read s) (io_set_active b (write s)) (keepActive s).

Definition Write_events (a : addr) (b : bool) (s : natsLibevEvents) : list event :=
  [ (if b then Ev_io_start else Ev_io_stop) (loop s) (a, m_write)
      (io_fd (write s)) (io_events (write s)) ].

(** The record after an attach on socket [S]. *)
Definition Attach_state (S : natsSock) (s : natsLibevEvents) : natsLibevEvents :=
  mkEvents (nc s) (loop s)
           (mk_io true (io_cb (read s)) (io_data (read s)) S (Z.lor EV_READ EV__IOFDSET))
           (mk_io false (io_cb (write s)) (io_data (write s)) S (Z.lor EV_WRITE EV__IOFDSET))
           (keepActive s).

Definition Attach_tail_events (a : addr) (S : natsSock) (l : ev_loop) : list event :=
  [ Ev_io_set (a, m_read) S EV_READ;
    Ev_io_start l (a, m_read) S (Z.lor EV_READ EV__IOFDSET);
    Ev_io_set (a, m_write) S EV_WRITE ].

Definition Reattach_events (a : addr) (S : natsSock) (s : natsLibevEvents) : list event :=
  [ Ev_io_stop (loop s) (a, m_read) (io_fd (read s)) (io_events (read s));
    Ev_io_stop (loop s) (a, m_write) (io_fd (write s)) (io_events (write s)) ]
    ++ Attach_tail_events a S (loop s).

Definition First_state (a : addr) (l : ev_loop) (c : natsConnection) (S : natsSock)
    : natsLibevEvents :=
  mkEvents c l
           (mk_io true cb_ProcessEvent (Some a) S (Z.lor EV_READ EV__IOFDSET))
           (mk_io false cb_ProcessEvent (Some a) S (Z.lor EV_WRITE EV__IOFDSET))
           (mk_async true cb_keepAlive false).

Definition Detach_events (a : addr) (s : natsLibevEvents) : list event :=
  [ Ev_io_stop (loop s) (a, m_read) (io_fd (read s)) (io_events (read s));
    Ev_io_stop (loop s) (a, m_write) (io_fd (write s)) (io_events (write s));
    Ev_async_send (loop s) (a, m_keepActive);
    Ev_async_stop (loop s) (a, m_keepActive);
    Ev_free a ].

End Io.

(** ** Comparing the variants *)

(** Two worlds, one per variant, that hold the same connections with the
    same watchers started on the same loops, and whose allocators behave
    alike. *)
Definition sim (σA : World Idle.natsLibevEvents) (σB : World Io.natsLibevEvents) : Prop :=
  Idle.view_of <$> heap σA = Io.view_of <$> heap σB
  ∧ registry σA = registry σB
  ∧ oracle σA = oracle σB.

(** Two outcomes agree when both are undefined, or both are defined with
    the same value and leave worlds that correspond. *)
Definition agree {A} (x : option (A * World Idle.natsLibevEvents))
    (y : option (A * World Io.natsLibevEvents)) : Prop :=
  match x, y with
  | Some (rA, σA), Some (rB, σB) => rA = rB ∧ sim σA σB
  | None, None => True
  | _, _ => False
  end.

(** A client session: connect, ask for write events, reconnect on another
    socket, stop reading, close. *)
Definition session : list call :=
  [ Call_Attach None 7%N 9%N 5%Z;
    Call_Write (Some 1%positive) true;
    Call_Attach (Some 1%positive) 7%N 9%N 6%Z;
    Call_Read (Some 1%positive) false;
    Call_Detach (Some 1%positive) ].

(** ** Sample worlds

    One connection attached on loop [7], connection [9], socket [5]. *)
Definition idle_world1 : World Idle.natsLibevEvents :=
  after (Idle.natsLibev_Attach None 7%N 9%N 5%Z) (empty_world [true]).

Definition io_world1 : World Io.natsLibevEvents :=
  after (Io.natsLibev_Attach None 7%N 9%N 5%Z) (empty_world [true]).

(** The same after a reconnect that names loop [8], connection [10] and
    socket [6]. *)
Definition idle_world2 : World Idle.natsLibevEvents :=
  after (Idle.natsLibev_Attach (Some 1%positive) 8%N 10%N 6%Z) idle_world1.

Definition io_world2 : World Io.natsLibevEvents :=
  after (Io.natsLibev_Attach (Some 1%positive) 8%N 10%N 6%Z) io_world1.


Definition idle_world1_writing : World Idle.natsLibevEvents :=
  after (Idle.natsLibev_Write (Some 1%positive) true) idle_world1.

(** ** What the first attach installs

    The callbacks handed to [ev_init] and the started [keepActive]. *)
Definition idle_installed (σ : World Idle.natsLibevEvents) : Prop :=
  ∀ a s, heap σ !! a = Some s →
    async_active (Idle.keepActive s) = true
    ∧ async_cb (Idle.keepActive s) = cb_keepAlive
    ∧ io_cb (Idle.read s) = cb_ProcessReadEvent
    ∧ idle_cb (Idle.write s) = cb_ProcessWriteEvent.

Definition io_installed (σ : World Io.natsLibevEvents) : Prop :=
  ∀ a s, heap σ !! a = Some s →
    async_active (Io.keepActive s) = true
    ∧ async_cb (Io.keepActive s) = cb_keepAlive
    ∧ io_cb (Io.read s) = cb_ProcessEvent
    ∧ io_cb (Io.write s) = cb_ProcessEvent.

(** ** The queue-group example: the message handler

    [examples/queuegroup.c] counts the messages it receives and measures
    the time from the first to the [total]-th. The static variables of the
    file, the clock read by [nats_Now] and the calls that leave the handler
    make up the state. *)

Module QueueGroup.

Definition natsMsg := N.
Definition natsSubscription := N.

Definition INT64_MIN : Z := - 2 ^ 63.
Definition INT64_MAX : Z := 2 ^ 63 - 1.

(** The value of a signed 64-bit expression; an overflow is undefined. *)
Definition int64 (z : Z) : option Z :=
  if (INT64_MIN <=? z)%Z && (z <=? INT64_MAX)%Z then Some z else None.

Inductive out :=
| Printf_received (msg : natsMsg)
| Nats_Now (t : Z)
| NatsMsg_Destroy (msg : natsMsg).

Record state := mkState {
  count : Z;
  total : Z;
  start : Z;
  elapsed : Z;
  print : bool;
  clock : nat → Z;
  ticks : nat;
  outs : list out }.

Definition set_count (c : Z) (σ : state) : state :=
  mkState c (total σ) (start σ) (elapsed σ) (print σ) (clock σ) (ticks σ) (outs σ).
Definition set_start (t : Z) (σ : state) : state :=
  mkState (count σ) (total σ) t (elapsed σ) (print σ) (clock σ) (ticks σ) (outs σ).
Definition set_elapsed (e : Z) (σ : state) : state :=
  mkState (count σ) (total σ) (start σ) e (print σ) (clock σ) (ticks σ) (outs σ).
Definition log (o : out) (σ : state) : state :=
  mkState (count σ) (total σ) (start σ) (elapsed σ) (print σ) (clock σ) (ticks σ)
          (outs σ ++ [o]).

(** [nats_Now ()]: the next reading of the clock. *)
Definition nats_Now (σ : state) : Z * state :=
  let t := clock σ (ticks σ) in
  (t, mkState (count σ) (total σ) (start σ) (elapsed σ) (print σ) (clock σ)
              (S (ticks σ)) (outs σ ++ [Nats_Now t])).

Definition onMsg (nc : natsConnection) (sub : natsSubscription) (msg : natsMsg)
    (closure : N) (σ : state) : option state :=
  let σ1 := if print σ then log (Printf_received msg) σ else σ in
  let σ2 := if (start σ1 =? 0)%Z
            then (let '(t, σ') := nats_Now σ1 in set_start t σ')
            else σ1 in
  c ← int64 (count σ2 + 1);
  let σ3 := set_count c σ2 in
  σ4 ← (if (c =? total σ3)%Z
        then (let '(t, σ') := nats_Now σ3 in
              e ← int64 (t - start σ'); Some (set_elapsed e σ'))
        else Some σ3);
  Some (log (NatsMsg_Destroy msg) σ4).

(** The subscription's delivery thread hands the messages to [onMsg] one
    after the other. *)
Fixpoint deliver (nc : natsConnection) (sub : natsSubscription) (msgs : list natsMsg)
    (σ : state) : option state :=
  match msgs with
  | [] => Some σ
  | msg :: msgs => σ' ← onMsg nc sub msg 0%N σ; deliver nc sub msgs σ'
  end.

(** The messages destroyed and the messages printed, in order. *)
Definition destroyed (os : list out) : list natsMsg :=
  omap (λ o, match o with NatsMsg_Destroy m => Some m | _ => None end) os.

Definition printed (os : list out) : list natsMsg :=
  omap (λ o, match o with Printf_received m => Some m | _ => None end) os.

(** The program as [main] leaves it before the first message: [total]
    read from the command line, the other counters at zero. *)
Definition initial (n : Z) (p : bool) (c : nat → Z) : state :=
  mkState 0 n 0 0 p c 0 [].

End QueueGroup.

(** Two connections attached one after the other, on sockets [5] and [8]. *)
Definition two_attaches : list call :=
  [ Call_Attach None 7%N 9%N 5%Z; Call_Attach None 7%N 11%N 8%Z ].

Definition idle_world_two : World Idle.natsLibevEvents :=
  after (Idle.run two_attaches) (empty_world [true; true]).

Definition io_world_two : World Io.natsLibevEvents :=
  after (Io.run two_attaches) (empty_world [true; true]).


(** A clock that starts at [1000] and advances by [250] at each reading. *)
Definition sample_clock (n : nat) : Z := (1000 + 250 * Z.of_nat n)%Z.

(** * Proofs *)

Ltac unfold_monad :=
  unfold ev_io_init, ev_idle_init, ev_async_init, ev_io_set, ev_idle_set,
    ev_io_start, ev_io_stop, ev_idle_start, ev_idle_stop,
    ev_async_start, ev_async_send, ev_async_stop,
    mbind, M_bind, mret, M_ret, load, store, emit, register, unregister, free.

Ltac mrun H :=
  cbn;
  repeat (first [ rewrite H | rewrite lookup_insert_eq | rewrite insert_insert_eq
                | rewrite delete_insert_eq ]; cbn);
  rewrite <- ?app_assoc; cbn.

Lemma emitted_app {T} (σ : World T) h R o es :
  emitted σ (mkWorld h R o (trace σ ++ es)) = es.
Proof. unfold emitted; cbn. by rewrite drop_app_length. Qed.

(** ** Well-formed worlds *)
Section WellFormed.
Context {T : Type}.
Variable loop_of : T → ev_loop.
Variable active_of : member → T → bool.
Variable ok : addr → T → Prop.

Lemma wf_gen_empty o : wf_gen loop_of active_of ok (empty_world o).
Proof.
  split; cbn.
  - intros l a m. split; [set_solver|].
    intros (s & H & _). by rewrite lookup_empty in H.
  - intros a s H. by rewrite lookup_empty in H.
Qed.

Lemma wf_gen_insert σ a s' R' o' t' :
  wf_gen loop_of active_of ok σ →
  ok a s' →
  (∀ l m, (l, (a, m)) ∈ R' ↔ loop_of s' = l ∧ active_of m s' = true) →
  (∀ l a' m, a' ≠ a → (l, (a', m)) ∈ R' ↔ (l, (a', m)) ∈ registry σ) →
  wf_gen loop_of active_of ok (mkWorld (<[a := s']> (heap σ)) R' o' t').
Proof.
  intros [Hreg Hok] Hs' Ha Hother. split; cbn.
  - intros l a' m. destruct (decide (a' = a)) as [->|Hne].
    + rewrite Ha, lookup_insert_eq. split.
      * intros [??]. by exists s'.
      * by intros (? & [= <-] & ? & ?).
    + rewrite (Hother _ _ _ Hne), Hreg, lookup_insert_ne by done. done.
  - intros a' s. destruct (decide (a' = a)) as [->|Hne].
    + rewrite lookup_insert_eq. by intros [= <-].
    + rewrite lookup_insert_ne by done. apply Hok.
Qed.

Lemma wf_gen_delete σ a R' o' t' :
  wf_gen loop_of active_of ok σ →
  (∀ l m, (l, (a, m)) ∉ R') →
  (∀ l a' m, a' ≠ a → (l, (a', m)) ∈ R' ↔ (l, (a', m)) ∈ registry σ) →
  wf_gen loop_of active_of ok (mkWorld (delete a (heap σ)) R' o' t').
Proof.
  intros [Hreg Hok] Ha Hother. split; cbn.
  - intros l a' m. destruct (decide (a' = a)) as [->|Hne].
    + rewrite lookup_delete_eq. split; [by intros ?%Ha | by intros (? & ? & _)].
    + rewrite (Hother _ _ _ Hne), Hreg, lookup_delete_ne by done. done.
  - intros a' s. destruct (decide (a' = a)) as [->|Hne].
    + by rewrite lookup_delete_eq.
    + rewrite lookup_delete_ne by done. apply Hok.
Qed.

Lemma wf_gen_frame σ o' t' :
  wf_gen loop_of active_of ok σ → wf_gen loop_of active_of ok (mkWorld (heap σ) (registry σ) o' t').
Proof. intros [??]; by split. Qed.

(** In a well-formed world an address that is not allocated has no
    registration. *)
Lemma wf_gen_fresh σ a l m :
  wf_gen loop_of active_of ok σ → heap σ !! a = None → (l, (a, m)) ∉ registry σ.
Proof. intros [Hreg _] Hnone [s [H _]]%Hreg. congruence. Qed.

Lemma wf_gen_reg σ a s l m :
  wf_gen loop_of active_of ok σ → heap σ !! a = Some s →
  (l, (a, m)) ∈ registry σ ↔ loop_of s = l ∧ active_of m s = true.
Proof.
  intros [Hreg _] H. rewrite Hreg. split.
  - intros (s' & H' & ?). by simplify_eq.
  - intros ?. by exists s.
Qed.
End WellFormed.

Lemma reg_toggle_elem on was r R x :
  x ∈ reg_toggle on was r R ↔
  if decide (x = r)
  then (if on then (if was then x ∈ R else True) else (if was then False else x ∈ R))
  else x ∈ R.
Proof.
  unfold reg_toggle.
  destruct (decide (x = r)) as [->|Hne]; destruct on, was;
    rewrite ?elem_of_union, ?elem_of_difference, ?elem_of_singleton; tauto.
Qed.

Lemma fresh_heap_None {T} (h : gmap addr T) : h !! fresh (dom h) = None.
Proof. apply not_elem_of_dom, is_fresh. Qed.

(** Membership in the registry computed by a call. *)
Ltac reg_cases :=
  repeat first [ rewrite elem_of_union | rewrite elem_of_difference
               | rewrite elem_of_singleton | rewrite reg_toggle_elem | case_decide ].

Ltac reg_other :=
  let Hne := fresh in
  intros ? ? ? Hne; reg_cases; simplify_eq; try tauto;
  try (intuition congruence).

(** ** The first variant, call by call *)

Module IdleFacts.
Import Idle.

Lemma idle_Read_run a s b (σ : World natsLibevEvents) :
  heap σ !! a = Some s →
  natsLibev_Read (Some a) b σ =
    Some (NATS_OK,
          mkWorld (<[a := Read_state b s]> (heap σ))
                  (reg_toggle b (io_active (read s)) (rd a s) (registry σ))
                  (oracle σ) (trace σ ++ Read_events a b s)).
Proof.
  intros H. destruct σ as [h R o t]; cbn in H.
  destruct s as [c l [ra rc rd rf re] w k].
  unfold natsLibev_Read, ev_io_toggle. unfold_monad.
  destruct b, ra; mrun H; done.
Qed.

Lemma idle_Write_run a s b (σ : World natsLibevEvents) :
  heap σ !! a = Some s →
  natsLibev_Write (Some a) b σ =
    Some (NATS_OK,
          mkWorld (<[a := Write_state b s]> (heap σ))
                  (reg_toggle b (idle_active (write s)) (wr a s) (registry σ))
                  (oracle σ) (trace σ ++ Write_events a b s)).
Proof.
  intros H. destruct σ as [h R o t]; cbn in H.
  destruct s as [c l r [wa wc wd] k].
  unfold natsLibev_Write, ev_idle_toggle. unfold_monad.
  destruct b, wa; mrun H; done.
Qed.

Lemma idle_Attach_reconnect_run a s l c S (σ : World natsLibevEvents) :
  heap σ !! a = Some s →
  natsLibev_Attach (Some a) l c S σ =
    Some ((NATS_OK, Some a),
          mkWorld (<[a := Attach_state S s]> (heap σ))
                  ({[ rd a s ]} ∪
                     reg_toggle false (idle_active (write s)) (wr a s)
                       (reg_toggle false (io_active (read s)) (rd a s) (registry σ)))
                  (oracle σ) (trace σ ++ Reattach_events a S s)).
Proof.
  intros H. destruct σ as [h R o t]; cbn in H.
  destruct s as [c0 l0 [ra rc rd rf re] [wa wc wd] k].
  unfold natsLibev_Attach, natsLibev_Read, natsLibev_Write, ev_io_toggle, ev_idle_toggle.
  unfold_monad.
  destruct ra, wa; mrun H; done.
Qed.

Lemma idle_Attach_first_run l c S o (σ : World natsLibevEvents) :
  oracle σ = true :: o →
  let a := fresh (dom (heap σ)) in
  natsLibev_Attach None l c S σ =
    Some ((NATS_OK, Some a),
          mkWorld (<[a := First_state a l c S]> (heap σ))
                  ({[ (l, (a, m_read)) ]} ∪ ({[ (l, (a, m_keepActive)) ]} ∪ registry σ))
                  o
                  (trace σ ++ [ Ev_malloc (Some a); Ev_async_start l (a, m_keepActive) ]
                           ++ Attach_tail_events a S l)).
Proof.
  intros H a. destruct σ as [h R o' t]; cbn in H; subst o'.
  unfold natsLibev_Attach, natsLibev_Read, ev_io_toggle, malloc.
  unfold_monad. mrun H; done.
Qed.

Lemma idle_Attach_nomem_run l c S (σ : World natsLibevEvents) :
  head (oracle σ) ≠ Some true →
  natsLibev_Attach None l c S σ =
    Some ((NATS_NO_MEMORY, None),
          mkWorld (heap σ) (registry σ) (tail (oracle σ)) (trace σ ++ [ Ev_malloc None ])).
Proof.
  intros H. destruct σ as [h R o t]; cbn in H.
  unfold natsLibev_Attach, malloc. unfold_monad.
  destruct o as [|[] o]; cbn; done.
Qed.

Lemma idle_Detach_run a s (σ : World natsLibevEvents) :
  heap σ !! a = Some s →
  natsLibev_Detach (Some a) σ =
    Some (NATS_OK,
          mkWorld (delete a (heap σ))
                  (reg_toggle false (async_active (keepActive s)) (ka a s)
                     (reg_toggle false (idle_active (write s)) (wr a s)
                        (reg_toggle false (io_active (read s)) (rd a s) (registry σ))))
                  (oracle σ) (trace σ ++ Detach_events a s)).
Proof.
  intros H. destruct σ as [h R o t]; cbn in H.
  destruct s as [c0 l0 [ra rc rd rf re] [wa wc wd] [ka kc ks]].
  unfold natsLibev_Detach, natsLibev_Read, natsLibev_Write, ev_io_toggle, ev_idle_toggle.
  unfold_monad.
  destruct ra, wa, ka; mrun H; done.
Qed.

(** A null handle is dereferenced: undefined behaviour. *)
Lemma idle_null_ub b (σ : World natsLibevEvents) :
  natsLibev_Read None b σ = None ∧ natsLibev_Write None b σ = None
  ∧ natsLibev_Detach None σ = None.
Proof. done. Qed.

Lemma idle_dangling_ub a b l c S (σ : World natsLibevEvents) :
  heap σ !! a = None →
  natsLibev_Read (Some a) b σ = None ∧ natsLibev_Write (Some a) b σ = None
  ∧ natsLibev_Detach (Some a) σ = None
  ∧ natsLibev_Attach (Some a) l c S σ = None.
Proof.
  intros H.
  unfold natsLibev_Attach, natsLibev_Detach, natsLibev_Read, natsLibev_Write.
  unfold_monad. by rewrite H.
Qed.

(** *** Well-formedness is preserved *)

Lemma idle_wf_empty o : wf (empty_world o).
Proof. apply wf_gen_empty. Qed.

Ltac idle_reg_own Hwf H :=
  let Hin := fresh in
  match goal with
  | |- (?l, (?a, ?m)) ∈ _ ↔ _ =>
      pose proof (wf_gen_reg _ _ _ _ a _ l m Hwf H) as Hin
  end;
  unfold rd, wr, ka in *;
  match goal with
  | s : natsLibevEvents |- _ =>
      destruct s as [? ? [[] ? ? ? ?] [[] ? ?] [[] ? ?]]
  end;
  repeat (reg_cases; simplify_eq; cbn in * );
  try match goal with m : member |- _ => destruct m end; cbn in *;
  try tauto; try (intuition congruence).

Lemma idle_wf_Read σ σ' p b r :
  wf σ → natsLibev_Read p b σ = Some (r, σ') → wf σ'.
Proof.
  intros Hwf Hrun. destruct p as [a|]; [|done].
  destruct (heap σ !! a) as [s|] eqn:H.
  2:{ destruct (idle_dangling_ub a b 0%N 0%N 0%Z σ H) as (E & _). congruence. }
  rewrite (idle_Read_run _ _ _ _ H) in Hrun. injection Hrun as <- <-.
  apply (wf_gen_insert _ _ _ σ); [done| | |].
  - apply (proj2 Hwf) in H. done.
  - intros l m; destruct b; idle_reg_own Hwf H.
  - unfold rd, wr, ka; reg_other.
Qed.

Lemma idle_wf_Write σ σ' p b r :
  wf σ → natsLibev_Write p b σ = Some (r, σ') → wf σ'.
Proof.
  intros Hwf Hrun. destruct p as [a|]; [|done].
  destruct (heap σ !! a) as [s|] eqn:H.
  2:{ destruct (idle_dangling_ub a b 0%N 0%N 0%Z σ H) as (_ & E & _). congruence. }
  rewrite (idle_Write_run _ _ _ _ H) in Hrun. injection Hrun as <- <-.
  apply (wf_gen_insert _ _ _ σ); [done| | |].
  - apply (proj2 Hwf) in H. done.
  - intros l m; destruct b; idle_reg_own Hwf H.
  - unfold rd, wr, ka; reg_other.
Qed.

Lemma idle_wf_Detach σ σ' p r :
  wf σ → natsLibev_Detach p σ = Some (r, σ') → wf σ'.
Proof.
  intros Hwf Hrun. destruct p as [a|]; [|done].
  destruct (heap σ !! a) as [s|] eqn:H.
  2:{ destruct (idle_dangling_ub a true 0%N 0%N 0%Z σ H) as (_ & _ & E & _). congruence. }
  rewrite (idle_Detach_run _ _ _ H) in Hrun. injection Hrun as <- <-.
  apply (wf_gen_delete _ _ _ σ); [done| |].
  - intros l m.
    cut ((l, (a, m)) ∈ reg_toggle false (async_active (keepActive s)) (ka a s)
           (reg_toggle false (idle_active (write s)) (wr a s)
              (reg_toggle false (io_active (read s)) (rd a s) (registry σ))) ↔ False);
      [tauto|].
    idle_reg_own Hwf H.
  - unfold rd, wr, ka; reg_other.
Qed.

Lemma idle_wf_Attach σ σ' p l c S r :
  wf σ → natsLibev_Attach p l c S σ = Some (r, σ') → wf σ'.
Proof.
  intros Hwf Hrun. destruct p as [a|].
  - destruct (heap σ !! a) as [s|] eqn:H.
    2:{ destruct (idle_dangling_ub a true l c S σ H) as (_ & _ & _ & E). congruence. }
    rewrite (idle_Attach_reconnect_run _ _ _ _ _ _ H) in Hrun. injection Hrun as <- <-.
    apply (wf_gen_insert _ _ _ σ); [done| | |].
    + apply (proj2 Hwf) in H. done.
    + intros l' m; idle_reg_own Hwf H.
    + unfold rd, wr, ka; reg_other.
  - destruct (oracle σ) as [|[] o] eqn:Ho.
    2:{ rewrite (idle_Attach_first_run _ _ _ _ _ Ho) in Hrun. injection Hrun as <- <-.
        pose proof (fresh_heap_None (heap σ)) as Hfresh.
        apply (wf_gen_insert _ _ _ σ); [done| | |].
        - done.
        - intros l' m.
          pose proof (wf_gen_fresh _ _ _ σ _ l' m Hwf Hfresh).
          reg_cases; simplify_eq; cbn; try tauto; destruct m; cbn; intuition congruence.
        - reg_other. }
    all: rewrite idle_Attach_nomem_run in Hrun by (by rewrite Ho);
      injection Hrun as <- <-; by apply wf_gen_frame.
Qed.




(** *** Dispatch *)

Lemma idle_ProcessReadEvent_run a s l revents (σ : World natsLibevEvents) :
  wf σ → heap σ !! a = Some s →
  natsLibev_ProcessReadEvent l (a, read_) revents σ =
    Some (tt, mkWorld (heap σ) (registry σ) (oracle σ)
                      (trace σ ++ [ Hook_ProcessReadEvent (nc s) ])).
Proof.
  intros [_ Hok] H. destruct (Hok _ _ H) as [Hr Hw].
  destruct σ as [h R o t]; cbn in H.
  unfold natsLibev_ProcessReadEvent. unfold_monad.
  cbn. rewrite H. cbn. rewrite Hr, H. done.
Qed.

Lemma idle_ProcessWriteEvent_run a s l revents (σ : World natsLibevEvents) :
  wf σ → heap σ !! a = Some s →
  natsLibev_ProcessWriteEvent l (a, write_) revents σ =
    Some (tt, mkWorld (heap σ) (registry σ) (oracle σ)
                      (trace σ ++ [ Hook_ProcessWriteEvent (nc s) ])).
Proof.
  intros [_ Hok] H. destruct (Hok _ _ H) as [Hr Hw].
  destruct σ as [h R o t]; cbn in H.
  unfold natsLibev_ProcessWriteEvent. unfold_monad.
  cbn. rewrite H. cbn. rewrite Hw, H. done.
Qed.

(** *** Every libev call is made on the stored loop *)

Lemma idle_events_on_loop a s b S :
  on_loop (loop s) (Read_events a b s) ∧ on_loop (loop s) (Write_events a b s)
  ∧ on_loop (loop s) (Reattach_events a S s) ∧ on_loop (loop s) (Detach_events a s).
Proof.
  unfold on_loop, Read_events, Write_events, Reattach_events, Detach_events.
  repeat split; repeat constructor; destruct b; cbn; congruence.
Qed.

(** *** Sequences of toggles *)

Lemma idle_do_toggles_run ts : ∀ (σ : World natsLibevEvents) a,
  wf σ → is_Some (heap σ !! a) →
  ∃ σ1, do_toggles (Some a) ts σ = Some (map (λ _, NATS_OK) ts, σ1)
        ∧ wf σ1 ∧ is_Some (heap σ1 !! a).
Proof.
  induction ts as [|t ts IH]; intros σ a Hwf [s H].
  - exists σ. split; [done|]. split; [done|]. by exists s.
  - assert (∃ σ0, do_toggle (Some a) t σ = Some (NATS_OK, σ0)
                  ∧ is_Some (heap σ0 !! a)) as (σ0 & Ht & H0).
    { destruct t as [b|b]; cbn; eexists.
      - split; [by apply idle_Read_run|]. cbn. by rewrite lookup_insert_eq.
      - split; [by apply idle_Write_run|]. cbn. by rewrite lookup_insert_eq. }
    assert (wf σ0) as Hwf0.
    { destruct t; [by eapply idle_wf_Read | by eapply idle_wf_Write]. }
    destruct (IH σ0 a Hwf0 H0) as (σ1 & Hrun & Hwf1 & H1).
    exists σ1. split; [|done].
    cbn. unfold mbind, M_bind, mret, M_ret. by rewrite Ht, Hrun.
Qed.

(** After a detach nothing of the record is left with the reactor. *)
Lemma idle_Detach_clean a s (σ : World natsLibevEvents) :
  wf σ → heap σ !! a = Some s →
  ∃ σ', natsLibev_Detach (Some a) σ = Some (NATS_OK, σ')
        ∧ (∀ l m, (l, (a, m)) ∉ registry σ')
        ∧ heap σ' !! a = None
        ∧ emitted σ σ' = Detach_events a s.
Proof.
  intros Hwf H. eexists. split; [by apply idle_Detach_run|].
  assert (wf (mkWorld (delete a (heap σ))
                (reg_toggle false (async_active (keepActive s)) (ka a s)
                   (reg_toggle false (idle_active (write s)) (wr a s)
                      (reg_toggle false (io_active (read s)) (rd a s) (registry σ))))
                (oracle σ) (trace σ ++ Detach_events a s))) as Hwf'.
  { eapply idle_wf_Detach; [exact Hwf|by apply idle_Detach_run]. }
  repeat split.
  - intros l m. apply (wf_gen_fresh _ _ _ _ a l m Hwf'). cbn. apply lookup_delete_eq.
  - cbn. apply lookup_delete_eq.
  - apply emitted_app.
Qed.

(** *** A toggle repeated *)

Lemma idle_Read_twice a s b (σ : World natsLibevEvents) :
  heap σ !! a = Some s →
  ∃ σ1 σ2, natsLibev_Read (Some a) b σ = Some (NATS_OK, σ1)
           ∧ natsLibev_Read (Some a) b σ1 = Some (NATS_OK, σ2)
           ∧ heap σ2 = heap σ1 ∧ registry σ2 = registry σ1.
Proof.
  intros H. eexists. eexists. split; [by apply idle_Read_run|].
  split; [apply idle_Read_run; cbn; apply lookup_insert_eq|].
  cbn. rewrite insert_insert_eq.
  destruct s as [c l [ra rc rd rf re] w k]. by destruct b.
Qed.

Lemma idle_Write_twice a s b (σ : World natsLibevEvents) :
  heap σ !! a = Some s →
  ∃ σ1 σ2, natsLibev_Write (Some a) b σ = Some (NATS_OK, σ1)
           ∧ natsLibev_Write (Some a) b σ1 = Some (NATS_OK, σ2)
           ∧ heap σ2 = heap σ1 ∧ registry σ2 = registry σ1.
Proof.
  intros H. eexists. eexists. split; [by apply idle_Write_run|].
  split; [apply idle_Write_run; cbn; apply lookup_insert_eq|].
  cbn. rewrite insert_insert_eq.
  destruct s as [c l r [wa ?] k]. by destruct b.
Qed.

Lemma idle_Read_on_off a s (σ : World natsLibevEvents) :
  heap σ !! a = Some s →
  ∃ σ1 σ2 s2, natsLibev_Read (Some a) true σ = Some (NATS_OK, σ1)
              ∧ natsLibev_Read (Some a) false σ1 = Some (NATS_OK, σ2)
              ∧ heap σ2 !! a = Some s2
              ∧ io_active (read s2) = false
              ∧ (loop s2, (a, m_read)) ∉ registry σ2.
Proof.
  intros H. eexists. eexists. eexists. split; [by apply idle_Read_run|].
  split; [apply idle_Read_run; cbn; apply lookup_insert_eq|].
  cbn. rewrite lookup_insert_eq. repeat split.
  unfold rd. cbn. rewrite elem_of_difference, elem_of_singleton. tauto.
Qed.
End IdleFacts.

(** ** The second variant, call by call *)

Module IoFacts.
Import Io.

Lemma io_Read_run a s b (σ : World natsLibevEvents) :
  heap σ !! a = Some s →
  natsLibev_Read (Some a) b σ =
    Some (NATS_OK,
          mkWorld (<[a := Read_state b s]> (heap σ))
                  (reg_toggle b (io_active (read s)) (rd a s) (registry σ))
                  (oracle σ) (trace σ ++ Read_events a b s)).
Proof.
  intros H. destruct σ as [h R o t]; cbn in H.
  destruct s as [c l [ra rc rd rf re] w k].
  unfold natsLibev_Read, ev_io_toggle. unfold_monad.
  destruct b, ra; mrun H; rewrite ?(insert_id _ _ _ H); done.
Qed.

Lemma io_Write_run a s b (σ : World natsLibevEvents) :
  heap σ !! a = Some s →
  natsLibev_Write (Some a) b σ =
    Some (NATS_OK,
          mkWorld (<[a := Write_state b s]> (heap σ))
                  (reg_toggle b (io_active (write s)) (wr a s) (registry σ))
                  (oracle σ) (trace σ ++ Write_events a b s)).
Proof.
  intros H. destruct σ as [h R o t]; cbn in H.
  destruct s as [c l r [wa wc wd wf we] k].
  unfold natsLibev_Write, ev_io_toggle. unfold_monad.
  destruct b, wa; mrun H; rewrite ?(insert_id _ _ _ H); done.
Qed.

Lemma io_Attach_reconnect_run a s l c S (σ : World natsLibevEvents) :
  heap σ !! a = Some s →
  natsLibev_Attach (Some a) l c S σ =
    Some ((NATS_OK, Some a),
          mkWorld (<[a := Attach_state S s]> (heap σ))
                  ({[ rd a s ]} ∪
                     reg_toggle false (io_active (write s)) (wr a s)
                       (reg_toggle false (io_active (read s)) (rd a s) (registry σ)))
                  (oracle σ) (trace σ ++ Reattach_events a S s)).
Proof.
  intros H. destruct σ as [h R o t]; cbn in H.
  destruct s as [c0 l0 [ra rc rd rf re] [wa wc wd wf we] k].
  unfold natsLibev_Attach. unfold_monad.
  destruct ra, wa; mrun H; done.
Qed.

Lemma io_Attach_first_run l c S o (σ : World natsLibevEvents) :
  oracle σ = true :: o →
  let a := fresh (dom (heap σ)) in
  natsLibev_Attach None l c S σ =
    Some ((NATS_OK, Some a),
          mkWorld (<[a := First_state a l c S]> (heap σ))
                  ({[ (l, (a, m_read)) ]} ∪ ({[ (l, (a, m_keepActive)) ]} ∪ registry σ))
                  o
                  (trace σ ++ [ Ev_malloc (Some a); Ev_async_start l (a, m_keepActive) ]
                           ++ Attach_tail_events a S l)).
Proof.
  intros H a. destruct σ as [h R o' t]; cbn in H; subst o'.
  unfold natsLibev_Attach, malloc.
  unfold_monad. mrun H; done.
Qed.

Lemma io_Attach_nomem_run l c S (σ : World natsLibevEvents) :
  head (oracle σ) ≠ Some true →
  natsLibev_Attach None l c S σ =
    Some ((NATS_NO_MEMORY, None),
          mkWorld (heap σ) (registry σ) (tail (oracle σ)) (trace σ ++ [ Ev_malloc None ])).
Proof.
  intros H. destruct σ as [h R o t]; cbn in H.
  unfold natsLibev_Attach, malloc. unfold_monad.
  destruct o as [|[] o]; cbn; done.
Qed.

Lemma io_Detach_run a s (σ : World natsLibevEvents) :
  heap σ !! a = Some s →
  natsLibev_Detach (Some a) σ =
    Some (NATS_OK,
          mkWorld (delete a (heap σ))
                  (reg_toggle false (async_active (keepActive s)) (ka a s)
                     (reg_toggle false (io_active (write s)) (wr a s)
                        (reg_toggle false (io_active (read s)) (rd a s) (registry σ))))
                  (oracle σ) (trace σ ++ Detach_events a s)).
Proof.
  intros H. destruct σ as [h R o t]; cbn in H.
  destruct s as [c0 l0 [ra rc rd rf re] [wa wc wd wf we] [ka kc ks]].
  unfold natsLibev_Detach. unfold_monad.
  destruct ra, wa, ka; mrun H; done.
Qed.

Lemma io_null_ub b (σ : World natsLibevEvents) :
  natsLibev_Read None b σ = None ∧ natsLibev_Write None b σ = None
  ∧ natsLibev_Detach None σ = None.
Proof. done. Qed.

Lemma io_dangling_ub a b l c S (σ : World natsLibevEvents) :
  heap σ !! a = None →
  natsLibev_Read (Some a) b σ = None ∧ natsLibev_Write (Some a) b σ = None
  ∧ natsLibev_Detach (Some a) σ = None
  ∧ natsLibev_Attach (Some a) l c S σ = None.
Proof.
  intros H.
  unfold natsLibev_Attach, natsLibev_Detach, natsLibev_Read, natsLibev_Write.
  unfold_monad. by rewrite H.
Qed.

(** *** Well-formedness is preserved *)

Lemma io_wf_empty o : wf (empty_world o).
Proof. apply wf_gen_empty. Qed.

Ltac io_reg_own Hwf H :=
  let Hin := fresh in
  match goal with
  | |- (?l, (?a, ?m)) ∈ _ ↔ _ =>
      pose proof (wf_gen_reg _ _ _ _ a _ l m Hwf H) as Hin
  end;
  unfold rd, wr, ka in *;
  match goal with
  | s : natsLibevEvents |- _ =>
      destruct s as [? ? [[] ? ? ? ?] [[] ? ? ? ?] [[] ? ?]]
  end;
  repeat (reg_cases; simplify_eq; cbn in * );
  try match goal with m : member |- _ => destruct m end; cbn in *;
  try tauto; try (intuition congruence).

Lemma io_wf_Read σ σ' p b r :
  wf σ → natsLibev_Read p b σ = Some (r, σ') → wf σ'.
Proof.
  intros Hwf Hrun. destruct p as [a|]; [|done].
  destruct (heap σ !! a) as [s|] eqn:H.
  2:{ destruct (io_dangling_ub a b 0%N 0%N 0%Z σ H) as (E & _). congruence. }
  rewrite (io_Read_run _ _ _ _ H) in Hrun. injection Hrun as <- <-.
  apply (wf_gen_insert _ _ _ σ); [done| | |].
  - apply (proj2 Hwf) in H. done.
  - intros l m; destruct b; io_reg_own Hwf H.
  - unfold rd, wr, ka; reg_other.
Qed.

Lemma io_wf_Write σ σ' p b r :
  wf σ → natsLibev_Write p b σ = Some (r, σ') → wf σ'.
Proof.
  intros Hwf Hrun. destruct p as [a|]; [|done].
  destruct (heap σ !! a) as [s|] eqn:H.
  2:{ destruct (io_dangling_ub a b 0%N 0%N 0%Z σ H) as (_ & E & _). congruence. }
  rewrite (io_Write_run _ _ _ _ H) in Hrun. injection Hrun as <- <-.
  apply (wf_gen_insert _ _ _ σ); [done| | |].
  - apply (proj2 Hwf) in H. done.
  - intros l m; destruct b; io_reg_own Hwf H.
  - unfold rd, wr, ka; reg_other.
Qed.

Lemma io_wf_Detach σ σ' p r :
  wf σ → natsLibev_Detach p σ = Some (r, σ') → wf σ'.
Proof.
  intros Hwf Hrun. destruct p as [a|]; [|done].
  destruct (heap σ !! a) as [s|] eqn:H.
  2:{ destruct (io_dangling_ub a true 0%N 0%N 0%Z σ H) as (_ & _ & E & _). congruence. }
  rewrite (io_Detach_run _ _ _ H) in Hrun. injection Hrun as <- <-.
  apply (wf_gen_delete _ _ _ σ); [done| |].
  - intros l m.
    cut ((l, (a, m)) ∈ reg_toggle false (async_active (keepActive s)) (ka a s)
           (reg_toggle false (io_active (write s)) (wr a s)
              (reg_toggle false (io_active (read s)) (rd a s) (registry σ))) ↔ False);
      [tauto|].
    io_reg_own Hwf H.
  - unfold rd, wr, ka; reg_other.
Qed.

Lemma io_wf_Attach σ σ' p l c S r :
  wf σ → natsLibev_Attach p l c S σ = Some (r, σ') → wf σ'.
Proof.
  intros Hwf Hrun. destruct p as [a|].
  - destruct (heap σ !! a) as [s|] eqn:H.
    2:{ destruct (io_dangling_ub a true l c S σ H) as (_ & _ & _ & E). congruence. }
    rewrite (io_Attach_reconnect_run _ _ _ _ _ _ H) in Hrun. injection Hrun as <- <-.
    apply (wf_gen_insert _ _ _ σ); [done| | |].
    + apply (proj2 Hwf) in H. done.
    + intros l' m; io_reg_own Hwf H.
    + unfold rd, wr, ka; reg_other.
  - destruct (oracle σ) as [|[] o] eqn:Ho.
    2:{ rewrite (io_Attach_first_run _ _ _ _ _ Ho) in Hrun. injection Hrun as <- <-.
        pose proof (fresh_heap_None (heap σ)) as Hfresh.
        apply (wf_gen_insert _ _ _ σ); [done| | |].
        - done.
        - intros l' m.
          pose proof (wf_gen_fresh _ _ _ σ _ l' m Hwf Hfresh).
          reg_cases; simplify_eq; cbn; try tauto; destruct m; cbn; intuition congruence.
        - reg_other. }
    all: rewrite io_Attach_nomem_run in Hrun by (by rewrite Ho);
      injection Hrun as <- <-; by apply wf_gen_frame.
Qed.




(** *** Dispatch *)

Lemma io_ProcessEvent_run a s l F revents (σ : World natsLibevEvents) :
  wf σ → heap σ !! a = Some s → F = read_ ∨ F = write_ →
  natsLibev_ProcessEvent l (a, F) revents σ =
    Some (tt, mkWorld (heap σ) (registry σ) (oracle σ)
                      (trace σ ++ hooks_of revents (nc s))).
Proof.
  intros [_ Hok] H HF. destruct (Hok _ _ H) as [Hr Hw].
  destruct σ as [h R o t]; cbn in H.
  unfold natsLibev_ProcessEvent, hooks_of. unfold_monad.
  cbn. rewrite H. cbn.
  assert (io_data (get F s) = Some a) as -> by (by destruct HF as [->| ->]).
  destruct (negb (Z.land revents EV_READ =? 0)%Z), (negb (Z.land revents EV_WRITE =? 0)%Z);
    cbn; rewrite ?H; cbn; rewrite ?H; cbn; rewrite <- ?app_assoc, ?app_nil_r; done.
Qed.

(** *** Every libev call is made on the stored loop *)

Lemma io_events_on_loop a s b S :
  on_loop (loop s) (Read_events a b s) ∧ on_loop (loop s) (Write_events a b s)
  ∧ on_loop (loop s) (Reattach_events a S s) ∧ on_loop (loop s) (Detach_events a s).
Proof.
  unfold on_loop, Read_events, Write_events, Reattach_events, Detach_events.
  repeat split; repeat constructor; destruct b; cbn; congruence.
Qed.

Lemma hooks_of_on_conn revents c : on_conn c (hooks_of revents c).
Proof.
  unfold on_conn, hooks_of.
  destruct (negb (Z.land revents EV_READ =? 0)%Z), (negb (Z.land revents EV_WRITE =? 0)%Z);
    repeat constructor; cbn; congruence.
Qed.

(** *** Sequences of toggles *)

Lemma io_do_toggles_run ts : ∀ (σ : World natsLibevEvents) a,
  wf σ → is_Some (heap σ !! a) →
  ∃ σ1, do_toggles (Some a) ts σ = Some (map (λ _, NATS_OK) ts, σ1)
        ∧ wf σ1 ∧ is_Some (heap σ1 !! a).
Proof.
  induction ts as [|t ts IH]; intros σ a Hwf [s H].
  - exists σ. split; [done|]. split; [done|]. by exists s.
  - assert (∃ σ0, do_toggle (Some a) t σ = Some (NATS_OK, σ0)
                  ∧ is_Some (heap σ0 !! a)) as (σ0 & Ht & H0).
    { destruct t as [b|b]; cbn; eexists.
      - split; [by apply io_Read_run|]. cbn. by rewrite lookup_insert_eq.
      - split; [by apply io_Write_run|]. cbn. by rewrite lookup_insert_eq. }
    assert (wf σ0) as Hwf0.
    { destruct t; [by eapply io_wf_Read | by eapply io_wf_Write]. }
    destruct (IH σ0 a Hwf0 H0) as (σ1 & Hrun & Hwf1 & H1).
    exists σ1. split; [|done].
    cbn. unfold mbind, M_bind, mret, M_ret. by rewrite Ht, Hrun.
Qed.

(** After a detach nothing of the record is left with the reactor. *)
Lemma io_Detach_clean a s (σ : World natsLibevEvents) :
  wf σ → heap σ !! a = Some s →
  ∃ σ', natsLibev_Detach (Some a) σ = Some (NATS_OK, σ')
        ∧ (∀ l m, (l, (a, m)) ∉ registry σ')
        ∧ heap σ' !! a = None
        ∧ emitted σ σ' = Detach_events a s.
Proof.
  intros Hwf H. eexists. split; [by apply io_Detach_run|].
  assert (wf (mkWorld (delete a (heap σ))
                (reg_toggle false (async_active (keepActive s)) (ka a s)
                   (reg_toggle false (io_active (write s)) (wr a s)
                      (reg_toggle false (io_active (read s)) (rd a s) (registry σ))))
                (oracle σ) (trace σ ++ Detach_events a s))) as Hwf'.
  { eapply io_wf_Detach; [exact Hwf|by apply io_Detach_run]. }
  repeat split.
  - intros l m. apply (wf_gen_fresh _ _ _ _ a l m Hwf'). cbn. apply lookup_delete_eq.
  - cbn. apply lookup_delete_eq.
  - apply emitted_app.
Qed.

(** *** A toggle repeated *)

Lemma io_Read_twice a s b (σ : World natsLibevEvents) :
  heap σ !! a = Some s →
  ∃ σ1 σ2, natsLibev_Read (Some a) b σ = Some (NATS_OK, σ1)
           ∧ natsLibev_Read (Some a) b σ1 = Some (NATS_OK, σ2)
           ∧ heap σ2 = heap σ1 ∧ registry σ2 = registry σ1.
Proof.
  intros H. eexists. eexists. split; [by apply io_Read_run|].
  split; [apply io_Read_run; cbn; apply lookup_insert_eq|].
  cbn. rewrite insert_insert_eq.
  destruct s as [c l [ra rc rd rf re] w k]. by destruct b.
Qed.

Lemma io_Write_twice a s b (σ : World natsLibevEvents) :
  heap σ !! a = Some s →
  ∃ σ1 σ2, natsLibev_Write (Some a) b σ = Some (NATS_OK, σ1)
           ∧ natsLibev_Write (Some a) b σ1 = Some (NATS_OK, σ2)
           ∧ heap σ2 = heap σ1 ∧ registry σ2 = registry σ1.
Proof.
  intros H. eexists. eexists. split; [by apply io_Write_run|].
  split; [apply io_Write_run; cbn; apply lookup_insert_eq|].
  cbn. rewrite insert_insert_eq.
  destruct s as [c l r [wa ? ? ? ?] k]. by destruct b.
Qed.

Lemma io_Read_on_off a s (σ : World natsLibevEvents) :
  heap σ !! a = Some s →
  ∃ σ1 σ2 s2, natsLibev_Read (Some a) true σ = Some (NATS_OK, σ1)
              ∧ natsLibev_Read (Some a) false σ1 = Some (NATS_OK, σ2)
              ∧ heap σ2 !! a = Some s2
              ∧ io_active (read s2) = false
              ∧ (loop s2, (a, m_read)) ∉ registry σ2.
Proof.
  intros H. eexists. eexists. eexists. split; [by apply io_Read_run|].
  split; [apply io_Read_run; cbn; apply lookup_insert_eq|].
  cbn. rewrite lookup_insert_eq. repeat split.
  unfold rd. cbn. rewrite elem_of_difference, elem_of_singleton. tauto.
Qed.
End IoFacts.

(** ** Sample worlds are well-formed *)

Lemma idle_world1_heap :
  heap idle_world1 !! 1%positive = Some (Idle.First_state 1%positive 7%N 9%N 5%Z).
Proof. vm_compute. reflexivity. Qed.

Lemma io_world1_heap :
  heap io_world1 !! 1%positive = Some (Io.First_state 1%positive 7%N 9%N 5%Z).
Proof. vm_compute. reflexivity. Qed.

Lemma idle_world1_wf : Idle.wf idle_world1.
Proof.
  unfold idle_world1, after.
  destruct (Idle.natsLibev_Attach None 7%N 9%N 5%Z (empty_world [true])) as [[r σ]|] eqn:E.
  - eapply IdleFacts.idle_wf_Attach; [apply IdleFacts.idle_wf_empty | exact E].
  - apply IdleFacts.idle_wf_empty.
Qed.

Lemma io_world1_wf : Io.wf io_world1.
Proof.
  unfold io_world1, after.
  destruct (Io.natsLibev_Attach None 7%N 9%N 5%Z (empty_world [true])) as [[r σ]|] eqn:E.
  - eapply IoFacts.io_wf_Attach; [apply IoFacts.io_wf_empty | exact E].
  - apply IoFacts.io_wf_empty.
Qed.

(** * The claims *)

(** C1, as stated, fails: in the variant with two [ev_io] watchers
    [natsLibev_Read] toggles the read watcher and returns; nothing is sent
    to [keepActive]. *)
Lemma C1_io_Read_sends_no_wake :
  value (Io.natsLibev_Read (Some 1%positive) false) io_world1 = Some NATS_OK
  ∧ emitted io_world1 (after (Io.natsLibev_Read (Some 1%positive) false) io_world1)
    = [ Ev_io_stop 7%N (1%positive, m_read) 5 129 ]
  ∧ existsb is_async_send
      (emitted io_world1 (after (Io.natsLibev_Read (Some 1%positive) false) io_world1))
    = false.
Proof. vm_compute. done. Qed.

(** C1 (amended): in the variant with the [ev_idle] write watcher, every
    [natsLibev_Read] and [natsLibev_Write] on an allocated state makes
    exactly two calls, the toggle of its watcher and then [ev_async_send] on
    [keepActive], and every [natsLibev_Attach] that succeeds (reconnect or
    first) ends with [ev_io_start] on the read watcher followed by
    [ev_async_send] on [keepActive]. In the variant with two [ev_io]
    watchers none of the three ever calls [ev_async_send]. *)
Theorem C1_wake_after_toggle :
  (∀ (σ : World Idle.natsLibevEvents) a s, heap σ !! a = Some s →
     (∀ b, ∃ σ', Idle.natsLibev_Read (Some a) b σ = Some (NATS_OK, σ')
        ∧ emitted σ σ' =
            [ (if b then Ev_io_start else Ev_io_stop) (Idle.loop s) (a, m_read)
                (io_fd (Idle.read s)) (io_events (Idle.read s));
              Ev_async_send (Idle.loop s) (a, m_keepActive) ])
     ∧ (∀ b, ∃ σ', Idle.natsLibev_Write (Some a) b σ = Some (NATS_OK, σ')
        ∧ emitted σ σ' =
            [ (if b then Ev_idle_start else Ev_idle_stop) (Idle.loop s) (a, m_write);
              Ev_async_send (Idle.loop s) (a, m_keepActive) ])
     ∧ (∀ l c S, ∃ σ' pre,
          Idle.natsLibev_Attach (Some a) l c S σ = Some ((NATS_OK, Some a), σ')
          ∧ emitted σ σ' =
              pre ++ [ Ev_io_start (Idle.loop s) (a, m_read) S (Z.lor EV_READ EV__IOFDSET);
                       Ev_async_send (Idle.loop s) (a, m_keepActive) ]))
  ∧ (∀ (σ : World Idle.natsLibevEvents) o l c S, oracle σ = true :: o →
       ∃ a σ' pre,
         Idle.natsLibev_Attach None l c S σ = Some ((NATS_OK, Some a), σ')
         ∧ emitted σ σ' =
             pre ++ [ Ev_io_start l (a, m_read) S (Z.lor EV_READ EV__IOFDSET);
                      Ev_async_send l (a, m_keepActive) ])
  ∧ (∀ (σ σ' : World Io.natsLibevEvents) p b r,
       Io.natsLibev_Read p b σ = Some (r, σ') ∨ Io.natsLibev_Write p b σ = Some (r, σ') →
       existsb is_async_send (emitted σ σ') = false)
  ∧ (∀ (σ σ' : World Io.natsLibevEvents) p l c S r,
       Io.natsLibev_Attach p l c S σ = Some (r, σ') →
       existsb is_async_send (emitted σ σ') = false).
Proof.
  repeat split.
  - intros b. eexists. split; [by apply IdleFacts.idle_Read_run|]. apply emitted_app.
  - intros b. eexists. split; [by apply IdleFacts.idle_Write_run|]. apply emitted_app.
  - intros l c S. eexists. exists (take 5 (Idle.Reattach_events a S s)).
    split; [by apply IdleFacts.idle_Attach_reconnect_run|]. apply emitted_app.
  - intros σ o l c S Ho. eexists. eexists.
    exists [Ev_malloc (Some (fresh (dom (heap σ))));
            Ev_async_start l (fresh (dom (heap σ)), m_keepActive);
            Ev_io_set (fresh (dom (heap σ)), m_read) S EV_READ].
    split; [by apply IdleFacts.idle_Attach_first_run|]. apply emitted_app.
  - intros σ σ' p b r Hrun. destruct p as [a|]; [|by destruct Hrun].
    destruct (heap σ !! a) as [s|] eqn:H.
    2:{ destruct (IoFacts.io_dangling_ub a b 0%N 0%N 0%Z σ H) as (E1 & E2 & _).
        destruct Hrun; congruence. }
    rewrite (IoFacts.io_Read_run _ _ _ _ H), (IoFacts.io_Write_run _ _ _ _ H) in Hrun.
    destruct Hrun as [[= <- <-]|[= <- <-]]; rewrite emitted_app; by destruct b.
  - intros σ σ' p l c S r Hrun. destruct p as [a|].
    + destruct (heap σ !! a) as [s|] eqn:H.
      2:{ destruct (IoFacts.io_dangling_ub a true l c S σ H) as (_ & _ & _ & E). congruence. }
      rewrite (IoFacts.io_Attach_reconnect_run _ _ _ _ _ _ H) in Hrun.
      injection Hrun as <- <-. by rewrite emitted_app.
    + destruct (oracle σ) as [|[] o] eqn:Ho.
      2:{ rewrite (IoFacts.io_Attach_first_run _ _ _ _ _ Ho) in Hrun.
          injection Hrun as <- <-. by rewrite emitted_app. }
      all: rewrite IoFacts.io_Attach_nomem_run in Hrun by (by rewrite Ho);
        injection Hrun as <- <-; by rewrite emitted_app.
Qed.

(** C1 (amended) on the sample worlds. *)
Lemma C1_wake_after_toggle_witness :
  (∃ σ', Idle.natsLibev_Read (Some 1%positive) true idle_world1 = Some (NATS_OK, σ')
     ∧ emitted idle_world1 σ' =
         [ Ev_io_start 7%N (1%positive, m_read) 5 129;
           Ev_async_send 7%N (1%positive, m_keepActive) ])
  ∧ existsb is_async_send
      (emitted io_world1 (after (Io.natsLibev_Read (Some 1%positive) true) io_world1))
    = false.
Proof.
  split.
  - exact (proj1 (proj1 C1_wake_after_toggle idle_world1 1%positive _ idle_world1_heap) true).
  - refine (proj1 (proj2 (proj2 C1_wake_after_toggle)) io_world1 _ (Some 1%positive) true
              NATS_OK _).
    left. vm_compute. reflexivity.
Defined.




(** C3, as stated, fails: a reconnect that names loop [8] and connection
    [10] leaves the record on loop [7] and connection [9] of the first
    attach; the next toggle goes to loop [7] and the next notification to
    connection [9]. *)
Lemma C3_reconnect_ignores_new_handles :
  value (Idle.natsLibev_Attach (Some 1%positive) 8%N 10%N 6%Z) idle_world1
    = Some (NATS_OK, Some 1%positive)
  ∧ emitted idle_world2 (after (Idle.natsLibev_Read (Some 1%positive) false) idle_world2)
    = [ Ev_io_stop 7%N (1%positive, m_read) 6 129;
        Ev_async_send 7%N (1%positive, m_keepActive) ]
  ∧ emitted idle_world2
      (after (Idle.natsLibev_ProcessReadEvent 8%N (1%positive, Idle.read_) EV_READ)
             idle_world2)
    = [ Hook_ProcessReadEvent 9%N ]
  ∧ emitted io_world2 (after (Io.natsLibev_Write (Some 1%positive) true) io_world2)
    = [ Ev_io_start 7%N (1%positive, m_write) 6 130 ]
  ∧ emitted io_world2
      (after (Io.natsLibev_ProcessEvent 8%N (1%positive, Io.read_) EV_READ) io_world2)
    = [ Hook_ProcessReadEvent 9%N ].
Proof. vm_compute. done. Qed.

(** C3 (amended): in both variants the first [natsLibev_Attach] stores the
    loop and the connection it is given, and a reconnect on an attached
    state keeps the stored loop and connection whatever loop and connection
    it is given. Every libev call of the reconnect itself and of the
    following [natsLibev_Read], [natsLibev_Write] and [natsLibev_Detach] is
    made on the stored loop, and every dispatch invokes the hooks on the
    stored connection. *)
Theorem C3_stored_handles_are_used :
  (∀ (σ : World Idle.natsLibevEvents) a s, Idle.wf σ → heap σ !! a = Some s →
     (∀ l c S, ∃ σ' s',
        Idle.natsLibev_Attach (Some a) l c S σ = Some ((NATS_OK, Some a), σ')
        ∧ heap σ' !! a = Some s'
        ∧ Idle.loop s' = Idle.loop s ∧ Idle.nc s' = Idle.nc s
        ∧ on_loop (Idle.loop s) (emitted σ σ'))
     ∧ (∀ b, ∃ σ', Idle.natsLibev_Read (Some a) b σ = Some (NATS_OK, σ')
                   ∧ on_loop (Idle.loop s) (emitted σ σ'))
     ∧ (∀ b, ∃ σ', Idle.natsLibev_Write (Some a) b σ = Some (NATS_OK, σ')
                   ∧ on_loop (Idle.loop s) (emitted σ σ'))
     ∧ (∃ σ', Idle.natsLibev_Detach (Some a) σ = Some (NATS_OK, σ')
              ∧ on_loop (Idle.loop s) (emitted σ σ'))
     ∧ (∀ l revents, ∃ σ',
          Idle.natsLibev_ProcessReadEvent l (a, Idle.read_) revents σ = Some (tt, σ')
          ∧ on_conn (Idle.nc s) (emitted σ σ'))
     ∧ (∀ l revents, ∃ σ',
          Idle.natsLibev_ProcessWriteEvent l (a, Idle.write_) revents σ = Some (tt, σ')
          ∧ on_conn (Idle.nc s) (emitted σ σ')))
  ∧ (∀ (σ : World Idle.natsLibevEvents) o l c S, oracle σ = true :: o →
       ∃ a σ' s', Idle.natsLibev_Attach None l c S σ = Some ((NATS_OK, Some a), σ')
                  ∧ heap σ' !! a = Some s' ∧ Idle.loop s' = l ∧ Idle.nc s' = c)
  ∧ (∀ (σ : World Io.natsLibevEvents) a s, Io.wf σ → heap σ !! a = Some s →
     (∀ l c S, ∃ σ' s',
        Io.natsLibev_Attach (Some a) l c S σ = Some ((NATS_OK, Some a), σ')
        ∧ heap σ' !! a = Some s'
        ∧ Io.loop s' = Io.loop s ∧ Io.nc s' = Io.nc s
        ∧ on_loop (Io.loop s) (emitted σ σ'))
     ∧ (∀ b, ∃ σ', Io.natsLibev_Read (Some a) b σ = Some (NATS_OK, σ')
                   ∧ on_loop (Io.loop s) (emitted σ σ'))
     ∧ (∀ b, ∃ σ', Io.natsLibev_Write (Some a) b σ = Some (NATS_OK, σ')
                   ∧ on_loop (Io.loop s) (emitted σ σ'))
     ∧ (∃ σ', Io.natsLibev_Detach (Some a) σ = Some (NATS_OK, σ')
              ∧ on_loop (Io.loop s) (emitted σ σ'))
     ∧ (∀ l F revents, F = Io.read_ ∨ F = Io.write_ → ∃ σ',
          Io.natsLibev_ProcessEvent l (a, F) revents σ = Some (tt, σ')
          ∧ on_conn (Io.nc s) (emitted σ σ')))
  ∧ (∀ (σ : World Io.natsLibevEvents) o l c S, oracle σ = true :: o →
       ∃ a σ' s', Io.natsLibev_Attach None l c S σ = Some ((NATS_OK, Some a), σ')
                  ∧ heap σ' !! a = Some s' ∧ Io.loop s' = l ∧ Io.nc s' = c).
Proof.
  split; [|split; [|split]].
  - intros σ a s Hwf H.
    destruct (IdleFacts.idle_events_on_loop a s true 0%Z) as (_ & _ & _ & HD).
    repeat split.
    + intros l c S. eexists. eexists.
      split; [by apply IdleFacts.idle_Attach_reconnect_run|].
      cbn. rewrite lookup_insert_eq, emitted_app.
      repeat split; try done. apply (IdleFacts.idle_events_on_loop a s true S).
    + intros b. eexists. split; [by apply IdleFacts.idle_Read_run|].
      rewrite emitted_app. apply (IdleFacts.idle_events_on_loop a s b 0%Z).
    + intros b. eexists. split; [by apply IdleFacts.idle_Write_run|].
      rewrite emitted_app. apply (IdleFacts.idle_events_on_loop a s b 0%Z).
    + eexists. split; [by apply IdleFacts.idle_Detach_run|]. by rewrite emitted_app.
    + intros l revents. eexists.
      split; [by apply IdleFacts.idle_ProcessReadEvent_run|].
      rewrite emitted_app. repeat constructor. cbn. congruence.
    + intros l revents. eexists.
      split; [by apply IdleFacts.idle_ProcessWriteEvent_run|].
      rewrite emitted_app. repeat constructor. cbn. congruence.
  - intros σ o l c S Ho. eexists. eexists. eexists.
    split; [by apply IdleFacts.idle_Attach_first_run|].
    cbn. rewrite lookup_insert_eq. done.
  - intros σ a s Hwf H.
    destruct (IoFacts.io_events_on_loop a s true 0%Z) as (_ & _ & _ & HD).
    repeat split.
    + intros l c S. eexists. eexists.
      split; [by apply IoFacts.io_Attach_reconnect_run|].
      cbn. rewrite lookup_insert_eq, emitted_app.
      repeat split; try done. apply (IoFacts.io_events_on_loop a s true S).
    + intros b. eexists. split; [by apply IoFacts.io_Read_run|].
      rewrite emitted_app. apply (IoFacts.io_events_on_loop a s b 0%Z).
    + intros b. eexists. split; [by apply IoFacts.io_Write_run|].
      rewrite emitted_app. apply (IoFacts.io_events_on_loop a s b 0%Z).
    + eexists. split; [by apply IoFacts.io_Detach_run|]. by rewrite emitted_app.
    + intros l F revents HF. eexists.
      split; [by apply IoFacts.io_ProcessEvent_run|].
      rewrite emitted_app. apply IoFacts.hooks_of_on_conn.
  - intros σ o l c S Ho. eexists. eexists. eexists.
    split; [by apply IoFacts.io_Attach_first_run|].
    cbn. rewrite lookup_insert_eq. done.
Qed.

(** C3 (amended) on the sample worlds: the reconnect names loop [8] and
    connection [10], the record stays on loop [7] and connection [9]. *)
Lemma C3_stored_handles_are_used_witness :
  (∃ σ' s',
     Idle.natsLibev_Attach (Some 1%positive) 8%N 10%N 6%Z idle_world1
       = Some ((NATS_OK, Some 1%positive), σ')
     ∧ heap σ' !! 1%positive = Some s'
     ∧ Idle.loop s' = 7%N ∧ Idle.nc s' = 9%N
     ∧ on_loop 7%N (emitted idle_world1 σ'))
  ∧ (∃ σ' s',
     Io.natsLibev_Attach (Some 1%positive) 8%N 10%N 6%Z io_world1
       = Some ((NATS_OK, Some 1%positive), σ')
     ∧ heap σ' !! 1%positive = Some s'
     ∧ Io.loop s' = 7%N ∧ Io.nc s' = 9%N
     ∧ on_loop 7%N (emitted io_world1 σ')).
Proof.
  split.
  - exact (proj1 (proj1 C3_stored_handles_are_used idle_world1 1%positive _
                    idle_world1_wf idle_world1_heap) 8%N 10%N 6%Z).
  - exact (proj1 (proj1 (proj2 (proj2 C3_stored_handles_are_used)) io_world1 1%positive _
                    io_world1_wf io_world1_heap) 8%N 10%N 6%Z).
Defined.



(** C5: from an attached state of a well-formed world, after any list of
    [natsLibev_Read]/[natsLibev_Write] toggles (the empty list included),
    all of which return [NATS_OK], [natsLibev_Detach] returns [NATS_OK],
    leaves no watcher of the record (read, write or [keepActive]) registered
    with any loop, has stopped both watchers and [keepActive], and has
    freed the record. Both variants. *)
Theorem C5_detach_releases_everything :
  (∀ (σ : World Idle.natsLibevEvents) a ts, Idle.wf σ → is_Some (heap σ !! a) →
     ∃ σ1 s1 σ2,
       Idle.do_toggles (Some a) ts σ = Some (map (λ _, NATS_OK) ts, σ1)
       ∧ heap σ1 !! a = Some s1
       ∧ Idle.natsLibev_Detach (Some a) σ1 = Some (NATS_OK, σ2)
       ∧ (∀ l m, (l, (a, m)) ∉ registry σ2)
       ∧ heap σ2 !! a = None
       ∧ emitted σ1 σ2 =
           [ Ev_io_stop (Idle.loop s1) (a, m_read)
               (io_fd (Idle.read s1)) (io_events (Idle.read s1));
             Ev_async_send (Idle.loop s1) (a, m_keepActive);
             Ev_idle_stop (Idle.loop s1) (a, m_write);
             Ev_async_send (Idle.loop s1) (a, m_keepActive);
             Ev_async_stop (Idle.loop s1) (a, m_keepActive);
             Ev_free a ])
  ∧ (∀ (σ : World Io.natsLibevEvents) a ts, Io.wf σ → is_Some (heap σ !! a) →
     ∃ σ1 s1 σ2,
       Io.do_toggles (Some a) ts σ = Some (map (λ _, NATS_OK) ts, σ1)
       ∧ heap σ1 !! a = Some s1
       ∧ Io.natsLibev_Detach (Some a) σ1 = Some (NATS_OK, σ2)
       ∧ (∀ l m, (l, (a, m)) ∉ registry σ2)
       ∧ heap σ2 !! a = None
       ∧ emitted σ1 σ2 =
           [ Ev_io_stop (Io.loop s1) (a, m_read)
               (io_fd (Io.read s1)) (io_events (Io.read s1));
             Ev_io_stop (Io.loop s1) (a, m_write)
               (io_fd (Io.write s1)) (io_events (Io.write s1));
             Ev_async_send (Io.loop s1) (a, m_keepActive);
             Ev_async_stop (Io.loop s1) (a, m_keepActive);
             Ev_free a ]).
Proof.
  split; intros σ a ts Hwf Hs.
  - destruct (IdleFacts.idle_do_toggles_run ts σ a Hwf Hs) as (σ1 & Hrun & Hwf1 & [s1 H1]).
    destruct (IdleFacts.idle_Detach_clean a s1 σ1 Hwf1 H1) as (σ2 & HD & Hreg & Hfree & Hev).
    by exists σ1, s1, σ2.
  - destruct (IoFacts.io_do_toggles_run ts σ a Hwf Hs) as (σ1 & Hrun & Hwf1 & [s1 H1]).
    destruct (IoFacts.io_Detach_clean a s1 σ1 Hwf1 H1) as (σ2 & HD & Hreg & Hfree & Hev).
    by exists σ1, s1, σ2.
Qed.

(** C5 on the sample worlds, after two toggles and after none. *)
Lemma C5_detach_releases_everything_witness :
  (∃ σ1 s1 σ2,
     Idle.do_toggles (Some 1%positive) [T_Write true; T_Read false] idle_world1
       = Some ([NATS_OK; NATS_OK], σ1)
     ∧ heap σ1 !! 1%positive = Some s1
     ∧ Idle.natsLibev_Detach (Some 1%positive) σ1 = Some (NATS_OK, σ2)
     ∧ (∀ l m, (l, (1%positive, m)) ∉ registry σ2)
     ∧ heap σ2 !! 1%positive = None
     ∧ emitted σ1 σ2 =
         [ Ev_io_stop (Idle.loop s1) (1%positive, m_read)
             (io_fd (Idle.read s1)) (io_events (Idle.read s1));
           Ev_async_send (Idle.loop s1) (1%positive, m_keepActive);
           Ev_idle_stop (Idle.loop s1) (1%positive, m_write);
           Ev_async_send (Idle.loop s1) (1%positive, m_keepActive);
           Ev_async_stop (Idle.loop s1) (1%positive, m_keepActive);
           Ev_free 1%positive ])
  ∧ (∃ σ1 s1 σ2,
     Io.do_toggles (Some 1%positive) [] io_world1 = Some ([], σ1)
     ∧ heap σ1 !! 1%positive = Some s1
     ∧ Io.natsLibev_Detach (Some 1%positive) σ1 = Some (NATS_OK, σ2)
     ∧ (∀ l m, (l, (1%positive, m)) ∉ registry σ2)
     ∧ heap σ2 !! 1%positive = None
     ∧ emitted σ1 σ2 =
         [ Ev_io_stop (Io.loop s1) (1%positive, m_read)
             (io_fd (Io.read s1)) (io_events (Io.read s1));
           Ev_io_stop (Io.loop s1) (1%positive, m_write)
             (io_fd (Io.write s1)) (io_events (Io.write s1));
           Ev_async_send (Io.loop s1) (1%positive, m_keepActive);
           Ev_async_stop (Io.loop s1) (1%positive, m_keepActive);
           Ev_free 1%positive ]).
Proof.
  split.
  - apply (proj1 C5_detach_releases_everything idle_world1 1%positive
             [T_Write true; T_Read false] idle_world1_wf).
    eexists. apply idle_world1_heap.
  - apply (proj2 C5_detach_releases_everything io_world1 1%positive [] io_world1_wf).
    eexists. apply io_world1_heap.
Defined.

(** C6: on an allocated state, in both variants, [natsLibev_Read] and
    [natsLibev_Write] return [NATS_OK], the same toggle made twice leaves
    the records and the reactor's registrations as the first call left
    them, and [natsLibev_Read (true)] followed by [natsLibev_Read (false)]
    leaves the read watcher inactive and unregistered, whatever its
    activation was before. *)
Theorem C6_toggle_idempotent :
  (∀ (σ : World Idle.natsLibevEvents) a s, heap σ !! a = Some s →
     (∀ b, ∃ σ1 σ2,
        Idle.natsLibev_Read (Some a) b σ = Some (NATS_OK, σ1)
        ∧ Idle.natsLibev_Read (Some a) b σ1 = Some (NATS_OK, σ2)
        ∧ heap σ2 = heap σ1 ∧ registry σ2 = registry σ1)
     ∧ (∀ b, ∃ σ1 σ2,
        Idle.natsLibev_Write (Some a) b σ = Some (NATS_OK, σ1)
        ∧ Idle.natsLibev_Write (Some a) b σ1 = Some (NATS_OK, σ2)
        ∧ heap σ2 = heap σ1 ∧ registry σ2 = registry σ1)
     ∧ (∃ σ1 σ2 s2,
        Idle.natsLibev_Read (Some a) true σ = Some (NATS_OK, σ1)
        ∧ Idle.natsLibev_Read (Some a) false σ1 = Some (NATS_OK, σ2)
        ∧ heap σ2 !! a = Some s2
        ∧ io_active (Idle.read s2) = false
        ∧ (Idle.loop s2, (a, m_read)) ∉ registry σ2))
  ∧ (∀ (σ : World Io.natsLibevEvents) a s, heap σ !! a = Some s →
     (∀ b, ∃ σ1 σ2,
        Io.natsLibev_Read (Some a) b σ = Some (NATS_OK, σ1)
        ∧ Io.natsLibev_Read (Some a) b σ1 = Some (NATS_OK, σ2)
        ∧ heap σ2 = heap σ1 ∧ registry σ2 = registry σ1)
     ∧ (∀ b, ∃ σ1 σ2,
        Io.natsLibev_Write (Some a) b σ = Some (NATS_OK, σ1)
        ∧ Io.natsLibev_Write (Some a) b σ1 = Some (NATS_OK, σ2)
        ∧ heap σ2 = heap σ1 ∧ registry σ2 = registry σ1)
     ∧ (∃ σ1 σ2 s2,
        Io.natsLibev_Read (Some a) true σ = Some (NATS_OK, σ1)
        ∧ Io.natsLibev_Read (Some a) false σ1 = Some (NATS_OK, σ2)
        ∧ heap σ2 !! a = Some s2
        ∧ io_active (Io.read s2) = false
        ∧ (Io.loop s2, (a, m_read)) ∉ registry σ2)).
Proof.
  split; intros σ a s H.
  - split; [|split].
    + intros b. by apply (IdleFacts.idle_Read_twice a s).
    + intros b. by apply (IdleFacts.idle_Write_twice a s).
    + by apply (IdleFacts.idle_Read_on_off a s).
  - split; [|split].
    + intros b. by apply (IoFacts.io_Read_twice a s).
    + intros b. by apply (IoFacts.io_Write_twice a s).
    + by apply (IoFacts.io_Read_on_off a s).
Qed.

(** C6 on the sample worlds. *)
Lemma C6_toggle_idempotent_witness :
  (∃ σ1 σ2 s2,
     Idle.natsLibev_Read (Some 1%positive) true idle_world1 = Some (NATS_OK, σ1)
     ∧ Idle.natsLibev_Read (Some 1%positive) false σ1 = Some (NATS_OK, σ2)
     ∧ heap σ2 !! 1%positive = Some s2
     ∧ io_active (Idle.read s2) = false
     ∧ (Idle.loop s2, (1%positive, m_read)) ∉ registry σ2)
  ∧ (∃ σ1 σ2,
     Io.natsLibev_Write (Some 1%positive) true io_world1 = Some (NATS_OK, σ1)
     ∧ Io.natsLibev_Write (Some 1%positive) true σ1 = Some (NATS_OK, σ2)
     ∧ heap σ2 = heap σ1 ∧ registry σ2 = registry σ1).
Proof.
  split.
  - exact (proj2 (proj2 (proj1 C6_toggle_idempotent idle_world1 1%positive _
                           idle_world1_heap))).
  - exact (proj1 (proj2 (proj2 C6_toggle_idempotent io_world1 1%positive _
                           io_world1_heap)) true).
Defined.

(** C7: a first [natsLibev_Attach] (null [userData]) whose [malloc] fails
    returns [NATS_NO_MEMORY] and leaves [userData] null; the only call it
    has made is the failed [malloc], so the records and the reactor's
    registrations are what they were. Both variants. *)
Theorem C7_attach_out_of_memory :
  (∀ (σ : World Idle.natsLibevEvents) l c S, head (oracle σ) ≠ Some true →
     ∃ σ', Idle.natsLibev_Attach None l c S σ = Some ((NATS_NO_MEMORY, None), σ')
           ∧ heap σ' = heap σ ∧ registry σ' = registry σ
           ∧ emitted σ σ' = [ Ev_malloc None ])
  ∧ (∀ (σ : World Io.natsLibevEvents) l c S, head (oracle σ) ≠ Some true →
     ∃ σ', Io.natsLibev_Attach None l c S σ = Some ((NATS_NO_MEMORY, None), σ')
           ∧ heap σ' = heap σ ∧ registry σ' = registry σ
           ∧ emitted σ σ' = [ Ev_malloc None ]).
Proof.
  split; intros σ l c S Ho; eexists.
  - split; [by apply IdleFacts.idle_Attach_nomem_run|]. by rewrite emitted_app.
  - split; [by apply IoFacts.io_Attach_nomem_run|]. by rewrite emitted_app.
Qed.

(** C7 with an allocator that fails on the first request, and with one
    that is exhausted. *)
Lemma C7_attach_out_of_memory_witness :
  (∃ σ', Idle.natsLibev_Attach None 7%N 9%N 5%Z (empty_world [false; true])
           = Some ((NATS_NO_MEMORY, None), σ')
         ∧ heap σ' = ∅ ∧ registry σ' = ∅
         ∧ emitted (empty_world [false; true]) σ' = [ Ev_malloc None ])
  ∧ (∃ σ', Io.natsLibev_Attach None 7%N 9%N 5%Z io_world1
           = Some ((NATS_NO_MEMORY, None), σ')
         ∧ heap σ' = heap io_world1 ∧ registry σ' = registry io_world1
         ∧ emitted io_world1 σ' = [ Ev_malloc None ]).
Proof.
  split.
  - apply (proj1 C7_attach_out_of_memory (empty_world [false; true]) 7%N 9%N 5%Z).
    cbn. discriminate.
  - apply (proj2 C7_attach_out_of_memory io_world1 7%N 9%N 5%Z).
    vm_compute. discriminate.
Defined.

(** C9, as stated, fails: in the first variant the write watcher is an
    [ev_idle]; the loop notifies it with [EV_IDLE], which reports no write
    readiness, and [natsLibev_ProcessWriteEvent] invokes the write hook all
    the same. *)
Lemma C9_idle_write_hook_without_write_readiness :
  Z.land EV_IDLE EV_WRITE = 0%Z
  ∧ value (Idle.natsLibev_ProcessWriteEvent 7%N (1%positive, Idle.write_) EV_IDLE)
          idle_world1_writing = Some tt
  ∧ emitted idle_world1_writing
      (after (Idle.natsLibev_ProcessWriteEvent 7%N (1%positive, Idle.write_) EV_IDLE)
             idle_world1_writing)
    = [ Hook_ProcessWriteEvent 9%N ].
Proof. vm_compute. done. Qed.

(** C9 (amended): for an attached state of a well-formed world, in the
    variant with two [ev_io] watchers the callback of either watcher
    invokes the read hook exactly once if the notification has the
    [EV_READ] bit and not at all otherwise, then the write hook exactly once
    if it has the [EV_WRITE] bit and not at all otherwise, on the stored
    connection. In the variant with the [ev_idle] write watcher the read
    watcher's callback invokes the read hook exactly once and the write
    watcher's callback invokes the write hook exactly once, on the stored
    connection, whatever the notification reports. No callback changes a
    record or a registration. *)
Theorem C9_dispatch_hooks :
  (∀ (σ : World Io.natsLibevEvents) a s l F revents,
     Io.wf σ → heap σ !! a = Some s → F = Io.read_ ∨ F = Io.write_ →
     ∃ σ', Io.natsLibev_ProcessEvent l (a, F) revents σ = Some (tt, σ')
           ∧ emitted σ σ' =
               (if negb (Z.land revents EV_READ =? 0)%Z
                then [ Hook_ProcessReadEvent (Io.nc s) ] else [])
               ++ (if negb (Z.land revents EV_WRITE =? 0)%Z
                   then [ Hook_ProcessWriteEvent (Io.nc s) ] else [])
           ∧ heap σ' = heap σ ∧ registry σ' = registry σ)
  ∧ (∀ (σ : World Idle.natsLibevEvents) a s l revents,
     Idle.wf σ → heap σ !! a = Some s →
     (∃ σ', Idle.natsLibev_ProcessReadEvent l (a, Idle.read_) revents σ = Some (tt, σ')
            ∧ emitted σ σ' = [ Hook_ProcessReadEvent (Idle.nc s) ]
            ∧ heap σ' = heap σ ∧ registry σ' = registry σ)
     ∧ (∃ σ', Idle.natsLibev_ProcessWriteEvent l (a, Idle.write_) revents σ = Some (tt, σ')
              ∧ emitted σ σ' = [ Hook_ProcessWriteEvent (Idle.nc s) ]
              ∧ heap σ' = heap σ ∧ registry σ' = registry σ)).
Proof.
  split.
  - intros σ a s l F revents Hwf H HF. eexists.
    split; [by apply IoFacts.io_ProcessEvent_run|]. by rewrite emitted_app.
  - intros σ a s l revents Hwf H. split; eexists.
    + split; [by apply IdleFacts.idle_ProcessReadEvent_run|]. by rewrite emitted_app.
    + split; [by apply IdleFacts.idle_ProcessWriteEvent_run|]. by rewrite emitted_app.
Qed.

(** C9 (amended) on the sample worlds, for a read notification. *)
Lemma C9_dispatch_hooks_witness :
  (∃ σ', Io.natsLibev_ProcessEvent 7%N (1%positive, Io.read_) EV_READ io_world1
           = Some (tt, σ')
         ∧ emitted io_world1 σ' = [ Hook_ProcessReadEvent 9%N ]
         ∧ heap σ' = heap io_world1 ∧ registry σ' = registry io_world1)
  ∧ (∃ σ', Idle.natsLibev_ProcessReadEvent 7%N (1%positive, Idle.read_) EV_READ idle_world1
           = Some (tt, σ')
         ∧ emitted idle_world1 σ' = [ Hook_ProcessReadEvent 9%N ]
         ∧ heap σ' = heap idle_world1 ∧ registry σ' = registry idle_world1).
Proof.
  split.
  - apply (proj1 C9_dispatch_hooks io_world1 1%positive _ 7%N Io.read_ EV_READ
             io_world1_wf io_world1_heap).
    by left.
  - exact (proj1 (proj2 C9_dispatch_hooks idle_world1 1%positive _ 7%N EV_READ
                    idle_world1_wf idle_world1_heap)).
Defined.




(** ** The two variants step by step *)

Lemma sim_lookup σA σB a :
  sim σA σB →
  match heap σA !! a, heap σB !! a with
  | Some sA, Some sB => Idle.view_of sA = Io.view_of sB
  | None, None => True
  | _, _ => False
  end.
Proof.
  intros (Hh & _ & _).
  pose proof (f_equal (λ m, m !! a) Hh) as E. cbn in E.
  rewrite !lookup_fmap in E.
  destruct (heap σA !! a), (heap σB !! a); cbn in E; by simplify_eq.
Qed.

Lemma sim_fresh σA σB : sim σA σB → fresh (dom (heap σA)) = fresh (dom (heap σB)).
Proof.
  intros (Hh & _ & _). f_equal.
  rewrite <- (dom_fmap_L Idle.view_of (heap σA)), <- (dom_fmap_L Io.view_of (heap σB)).
  by rewrite Hh.
Qed.

Lemma sim_insert σA σB a sA sB RA RB oA oB tA tB :
  sim σA σB → Idle.view_of sA = Io.view_of sB → RA = RB → oA = oB →
  sim (mkWorld (<[a := sA]> (heap σA)) RA oA tA) (mkWorld (<[a := sB]> (heap σB)) RB oB tB).
Proof.
  intros (Hh & _ & _) Hv -> ->. repeat split; cbn.
  by rewrite !fmap_insert, Hh, Hv.
Qed.

Lemma sim_delete σA σB a RA RB oA oB tA tB :
  sim σA σB → RA = RB → oA = oB →
  sim (mkWorld (delete a (heap σA)) RA oA tA) (mkWorld (delete a (heap σB)) RB oB tB).
Proof.
  intros (Hh & _ & _) -> ->. repeat split; cbn.
  by rewrite !fmap_delete, Hh.
Qed.

Ltac view_eq Hv :=
  match type of Hv with
  | Idle.view_of ?sA = Io.view_of ?sB =>
      destruct sA as [? ? [] [] []], sB as [? ? [] [] []];
      cbn in Hv; injection Hv as -> -> -> -> -> -> ->
  end.

Lemma sim_Read σA σB u b :
  sim σA σB → agree (Idle.natsLibev_Read u b σA) (Io.natsLibev_Read u b σB).
Proof.
  intros Hsim. destruct u as [a|]; [|done].
  pose proof (sim_lookup σA σB a Hsim) as Hv.
  destruct (heap σA !! a) as [sA|] eqn:HA, (heap σB !! a) as [sB|] eqn:HB; try done.
  - rewrite (IdleFacts.idle_Read_run _ _ _ _ HA), (IoFacts.io_Read_run _ _ _ _ HB).
    split; [done|]. destruct Hsim as (? & HR & Ho).
    apply sim_insert; [done| | |done]; view_eq Hv; by rewrite ?HR.
  - destruct (IdleFacts.idle_dangling_ub a b 0%N 0%N 0%Z σA HA) as (-> & _).
    by destruct (IoFacts.io_dangling_ub a b 0%N 0%N 0%Z σB HB) as (-> & _).
Qed.

Lemma sim_Write σA σB u b :
  sim σA σB → agree (Idle.natsLibev_Write u b σA) (Io.natsLibev_Write u b σB).
Proof.
  intros Hsim. destruct u as [a|]; [|done].
  pose proof (sim_lookup σA σB a Hsim) as Hv.
  destruct (heap σA !! a) as [sA|] eqn:HA, (heap σB !! a) as [sB|] eqn:HB; try done.
  - rewrite (IdleFacts.idle_Write_run _ _ _ _ HA), (IoFacts.io_Write_run _ _ _ _ HB).
    split; [done|]. destruct Hsim as (? & HR & Ho).
    apply sim_insert; [done| | |done]; view_eq Hv; by rewrite ?HR.
  - destruct (IdleFacts.idle_dangling_ub a b 0%N 0%N 0%Z σA HA) as (_ & -> & _).
    by destruct (IoFacts.io_dangling_ub a b 0%N 0%N 0%Z σB HB) as (_ & -> & _).
Qed.

Lemma sim_Detach σA σB u :
  sim σA σB → agree (Idle.natsLibev_Detach u σA) (Io.natsLibev_Detach u σB).
Proof.
  intros Hsim. destruct u as [a|]; [|done].
  pose proof (sim_lookup σA σB a Hsim) as Hv.
  destruct (heap σA !! a) as [sA|] eqn:HA, (heap σB !! a) as [sB|] eqn:HB; try done.
  - rewrite (IdleFacts.idle_Detach_run _ _ _ HA), (IoFacts.io_Detach_run _ _ _ HB).
    split; [done|]. destruct Hsim as (? & HR & Ho).
    apply sim_delete; [done| |done]. view_eq Hv; by rewrite ?HR.
  - destruct (IdleFacts.idle_dangling_ub a true 0%N 0%N 0%Z σA HA) as (_ & _ & -> & _).
    by destruct (IoFacts.io_dangling_ub a true 0%N 0%N 0%Z σB HB) as (_ & _ & -> & _).
Qed.

Lemma sim_Attach σA σB u l c S :
  sim σA σB → agree (Idle.natsLibev_Attach u l c S σA) (Io.natsLibev_Attach u l c S σB).
Proof.
  intros Hsim. destruct u as [a|].
  - pose proof (sim_lookup σA σB a Hsim) as Hv.
    destruct (heap σA !! a) as [sA|] eqn:HA, (heap σB !! a) as [sB|] eqn:HB; try done.
    + rewrite (IdleFacts.idle_Attach_reconnect_run _ _ _ _ _ _ HA),
        (IoFacts.io_Attach_reconnect_run _ _ _ _ _ _ HB).
      split; [done|]. destruct Hsim as (? & HR & Ho).
      apply sim_insert; [done| | |done]; view_eq Hv; by rewrite ?HR.
    + destruct (IdleFacts.idle_dangling_ub a true l c S σA HA) as (_ & _ & _ & ->).
      by destruct (IoFacts.io_dangling_ub a true l c S σB HB) as (_ & _ & _ & ->).
  - pose proof (sim_fresh _ _ Hsim) as Hf. pose proof Hsim as (Hh & HR & Ho).
    destruct (oracle σA) as [|[] o] eqn:HoA.
    2:{ rewrite (IdleFacts.idle_Attach_first_run _ _ _ _ _ HoA),
          (IoFacts.io_Attach_first_run l c S o σB) by done.
        rewrite Hf. split; [done|]. apply sim_insert; [done|done| |done]. by rewrite HR. }
    all: rewrite IdleFacts.idle_Attach_nomem_run by (by rewrite HoA);
      rewrite IoFacts.io_Attach_nomem_run by (by rewrite <- Ho);
      split; [done|]; repeat split; cbn; [done|done|by rewrite HoA, <- Ho].
Qed.

Lemma sim_do_call σA σB k :
  sim σA σB → agree (Idle.do_call k σA) (Io.do_call k σB).
Proof.
  intros Hsim. destruct k as [u l c S|u b|u b|u]; cbn.
  - by apply sim_Attach.
  - pose proof (sim_Read _ _ u b Hsim) as H. unfold mbind, M_bind, mret, M_ret.
    destruct (Idle.natsLibev_Read u b σA) as [[??]|], (Io.natsLibev_Read u b σB) as [[??]|];
      try done. destruct H as [-> ?]. by split.
  - pose proof (sim_Write _ _ u b Hsim) as H. unfold mbind, M_bind, mret, M_ret.
    destruct (Idle.natsLibev_Write u b σA) as [[??]|], (Io.natsLibev_Write u b σB) as [[??]|];
      try done. destruct H as [-> ?]. by split.
  - pose proof (sim_Detach _ _ u Hsim) as H. unfold mbind, M_bind, mret, M_ret.
    destruct (Idle.natsLibev_Detach u σA) as [[??]|], (Io.natsLibev_Detach u σB) as [[??]|];
      try done. destruct H as [-> ?]. by split.
Qed.

Lemma sim_run ks : ∀ σA σB, sim σA σB → agree (Idle.run ks σA) (Io.run ks σB).
Proof.
  induction ks as [|k ks IH]; intros σA σB Hsim; [by split|].
  cbn. unfold mbind, M_bind, mret, M_ret.
  pose proof (sim_do_call _ _ k Hsim) as Hk.
  destruct (Idle.do_call k σA) as [[rA σA']|], (Io.do_call k σB) as [[rB σB']|]; try done.
  destruct Hk as [-> Hsim'].
  pose proof (IH _ _ Hsim') as Hks.
  destruct (Idle.run ks σA') as [[??]|], (Io.run ks σB') as [[??]|]; try done.
  destruct Hks as [-> ?]. by split.
Qed.

Lemma sim_empty o : sim (empty_world o) (empty_world o).
Proof. split; [|done]. cbn. by rewrite !fmap_empty. Qed.

(** A well-behaved session runs to the end in both variants. *)
Lemma session_runs :
  value (Idle.run session) (empty_world [true])
    = Some [ (NATS_OK, Some 1%positive); (NATS_OK, Some 1%positive);
             (NATS_OK, Some 1%positive); (NATS_OK, Some 1%positive);
             (NATS_OK, Some 1%positive) ]
  ∧ value (Io.run session) (empty_world [true])
    = Some [ (NATS_OK, Some 1%positive); (NATS_OK, Some 1%positive);
             (NATS_OK, Some 1%positive); (NATS_OK, Some 1%positive);
             (NATS_OK, Some 1%positive) ].
Proof. vm_compute. done. Qed.

(** C8: started from worlds that correspond (the same connections, with
    the same stored handles, the same read binding and the same watchers
    started on the same loops, and allocators that behave alike), any list
    of calls to [natsLibev_Attach], [natsLibev_Read], [natsLibev_Write] and
    [natsLibev_Detach] either is undefined in both variants (a null or
    freed handle is dereferenced) or returns, call by call, the same status
    and the same handle in both, and leaves the same watchers registered
    with the same loops: the read watchers, on the same descriptor, and the
    write watchers, an [ev_idle] in one variant and an [ev_io] in the
    other. *)
Theorem C8_variants_agree (ks : list call)
    (σA : World Idle.natsLibevEvents) (σB : World Io.natsLibevEvents) :
  sim σA σB →
  match Idle.run ks σA, Io.run ks σB with
  | Some (rsA, σA'), Some (rsB, σB') =>
      rsA = rsB
      ∧ registry σA' = registry σB'
      ∧ Idle.view_of <$> heap σA' = Io.view_of <$> heap σB'
  | None, None => True
  | _, _ => False
  end.
Proof.
  intros Hsim. pose proof (sim_run ks _ _ Hsim) as H.
  destruct (Idle.run ks σA) as [[??]|], (Io.run ks σB) as [[??]|]; try done.
  destruct H as (-> & Hh & HR & _). done.
Qed.

(** C8 on the sample session, from the empty worlds. *)
Lemma C8_variants_agree_witness :
  sim (empty_world [true]) (empty_world [true])
  ∧ match Idle.run session (empty_world [true]), Io.run session (empty_world [true]) with
    | Some (rsA, σA'), Some (rsB, σB') =>
        rsA = rsB
        ∧ registry σA' = registry σB'
        ∧ Idle.view_of <$> heap σA' = Io.view_of <$> heap σB'
    | None, None => True
    | _, _ => False
    end.
Proof.
  split; [apply sim_empty|].
  apply (C8_variants_agree session (empty_world [true]) (empty_world [true])).
  apply sim_empty.
Defined.

(** * Further properties of the adapter *)

Module IdleMore.
Import Idle IdleFacts.

(** ** Runs *)

Lemma idle_wf_do_call σ σ' k r : wf σ → do_call k σ = Some (r, σ') → wf σ'.
Proof.
  intros Hwf Hrun. destruct k as [u l c S|u b|u b|u]; cbn in Hrun.
  - destruct r. by eapply idle_wf_Attach.
  - unfold mbind, M_bind, mret, M_ret in Hrun.
    destruct (natsLibev_Read u b σ) as [[r0 σ0]|] eqn:E; [|done].
    injection Hrun as <- <-. by eapply idle_wf_Read.
  - unfold mbind, M_bind, mret, M_ret in Hrun.
    destruct (natsLibev_Write u b σ) as [[r0 σ0]|] eqn:E; [|done].
    injection Hrun as <- <-. by eapply idle_wf_Write.
  - unfold mbind, M_bind, mret, M_ret in Hrun.
    destruct (natsLibev_Detach u σ) as [[r0 σ0]|] eqn:E; [|done].
    injection Hrun as <- <-. by eapply idle_wf_Detach.
Qed.

Lemma idle_run_cons k ks σ rs σ' :
  run (k :: ks) σ = Some (rs, σ') →
  ∃ r σ0 rs0, do_call k σ = Some (r, σ0) ∧ run ks σ0 = Some (rs0, σ') ∧ rs = r :: rs0.
Proof.
  cbn. unfold mbind, M_bind, mret, M_ret.
  destruct (do_call k σ) as [[r σ0]|]; [|done].
  destruct (run ks σ0) as [[rs0 σ1]|] eqn:E; [|done].
  intros ?; simplify_eq. by exists r, σ0, rs0.
Qed.

Lemma idle_wf_run ks : ∀ σ rs σ', wf σ → run ks σ = Some (rs, σ') → wf σ'.
Proof.
  induction ks as [|k ks IH]; intros σ rs σ' Hwf Hrun.
  - cbn in Hrun. by injection Hrun as <- <-.
  - apply idle_run_cons in Hrun as (r & σ0 & rs0 & Hk & Hks & _).
    eapply IH; [|exact Hks]. by eapply idle_wf_do_call.
Qed.

(** ** Other records are left alone *)

Lemma idle_Attach_frame σ σ' u l c S st u' a' :
  natsLibev_Attach u l c S σ = Some ((st, u'), σ') → u' ≠ Some a' →
  heap σ' !! a' = heap σ !! a'
  ∧ ∀ l' m, (l', (a', m)) ∈ registry σ' ↔ (l', (a', m)) ∈ registry σ.
Proof.
  intros Hrun Hne. destruct u as [a|].
  - destruct (heap σ !! a) as [s|] eqn:H.
    2:{ destruct (idle_dangling_ub a true l c S σ H) as (_ & _ & _ & E). congruence. }
    rewrite (idle_Attach_reconnect_run _ _ _ _ _ _ H) in Hrun.
    injection Hrun as <- <- <-. assert (a' ≠ a) as Hne' by congruence.
    split; cbn; [by rewrite lookup_insert_ne|].
    intros l' m. clear Hne. revert l' a' m Hne'. unfold rd, wr, ka. reg_other.
  - destruct (oracle σ) as [|[] o] eqn:Ho.
    2:{ rewrite (idle_Attach_first_run _ _ _ _ _ Ho) in Hrun.
        injection Hrun as <- <- <-.
        assert (a' ≠ fresh (dom (heap σ))) as Hne' by congruence.
        split; cbn; [by rewrite lookup_insert_ne|].
        intros l' m. clear Hne. revert l' a' m Hne'. reg_other. }
    all: rewrite idle_Attach_nomem_run in Hrun by (by rewrite Ho);
      by injection Hrun as <- <- <-.
Qed.

Lemma idle_Detach_frame σ σ' a st a' :
  natsLibev_Detach (Some a) σ = Some (st, σ') → a' ≠ a →
  heap σ' !! a' = heap σ !! a'
  ∧ ∀ l' m, (l', (a', m)) ∈ registry σ' ↔ (l', (a', m)) ∈ registry σ.
Proof.
  intros Hrun Hne.
  destruct (heap σ !! a) as [s|] eqn:H.
  2:{ destruct (idle_dangling_ub a true 0%N 0%N 0%Z σ H) as (_ & _ & E & _). congruence. }
  rewrite (idle_Detach_run _ _ _ H) in Hrun. injection Hrun as <- <-.
  split; cbn; [by rewrite lookup_delete_ne|].
  intros l' m. revert l' a' m Hne. unfold rd, wr, ka. reg_other.
Qed.

Lemma idle_toggle_frame σ σ' a t st a' :
  do_toggle (Some a) t σ = Some (st, σ') → a' ≠ a →
  heap σ' !! a' = heap σ !! a'
  ∧ ∀ l' m, (l', (a', m)) ∈ registry σ' ↔ (l', (a', m)) ∈ registry σ.
Proof.
  intros Hrun Hne.
  destruct (heap σ !! a) as [s|] eqn:H.
  2:{ destruct (idle_dangling_ub a true 0%N 0%N 0%Z σ H) as (E1 & E2 & _).
      destruct t as [[]|[]]; cbn in Hrun;
        destruct (idle_dangling_ub a false 0%N 0%N 0%Z σ H) as (E3 & E4 & _); congruence. }
  destruct t as [b|b]; cbn in Hrun.
  - rewrite (idle_Read_run _ _ _ _ H) in Hrun. injection Hrun as <- <-.
    split; cbn; [by rewrite lookup_insert_ne|].
    intros l' m. revert l' a' m Hne. unfold rd, wr, ka. reg_other.
  - rewrite (idle_Write_run _ _ _ _ H) in Hrun. injection Hrun as <- <-.
    split; cbn; [by rewrite lookup_insert_ne|].
    intros l' m. revert l' a' m Hne. unfold rd, wr, ka. reg_other.
Qed.

Lemma idle_toggles_frame ts : ∀ σ σ' a rs a',
  do_toggles (Some a) ts σ = Some (rs, σ') → a' ≠ a →
  heap σ' !! a' = heap σ !! a'
  ∧ ∀ l' m, (l', (a', m)) ∈ registry σ' ↔ (l', (a', m)) ∈ registry σ.
Proof.
  induction ts as [|t ts IH]; intros σ σ' a rs a' Hrun Hne.
  - cbn in Hrun. by injection Hrun as <- <-.
  - cbn in Hrun. unfold mbind, M_bind, mret, M_ret in Hrun.
    destruct (do_toggle (Some a) t σ) as [[r σ0]|] eqn:Et; [|done].
    destruct (do_toggles (Some a) ts σ0) as [[rs0 σ1]|] eqn:Ets; [|done].
    injection Hrun as <- <-.
    destruct (idle_toggle_frame _ _ _ _ _ _ Et Hne) as [Hh HR].
    destruct (IH _ _ _ _ _ Ets Hne) as [Hh' HR'].
    split; [congruence|]. intros l' m. by rewrite HR', HR.
Qed.

(** ** What the first attach installs stays *)

Ltac idle_inst Hinst H :=
  let a0 := fresh in let s0 := fresh in let H0 := fresh in
  intros a0 s0 H0; cbn in H0;
  match type of H0 with
  | <[?a := _]> _ !! _ = _ =>
      destruct (decide (a0 = a)) as [->|];
      [ rewrite lookup_insert_eq in H0; injection H0 as <-;
        try (specialize (Hinst _ _ H)); cbn in *; tauto
      | rewrite lookup_insert_ne in H0 by done; by eapply Hinst ]
  end.

Lemma idle_installed_Read σ σ' u b r :
  idle_installed σ → natsLibev_Read u b σ = Some (r, σ') → idle_installed σ'.
Proof.
  intros Hinst Hrun. destruct u as [a|]; [|done].
  destruct (heap σ !! a) as [s|] eqn:H.
  2:{ destruct (idle_dangling_ub a b 0%N 0%N 0%Z σ H) as (E & _). congruence. }
  rewrite (idle_Read_run _ _ _ _ H) in Hrun. injection Hrun as <- <-.
  idle_inst Hinst H.
Qed.

Lemma idle_installed_Write σ σ' u b r :
  idle_installed σ → natsLibev_Write u b σ = Some (r, σ') → idle_installed σ'.
Proof.
  intros Hinst Hrun. destruct u as [a|]; [|done].
  destruct (heap σ !! a) as [s|] eqn:H.
  2:{ destruct (idle_dangling_ub a b 0%N 0%N 0%Z σ H) as (_ & E & _). congruence. }
  rewrite (idle_Write_run _ _ _ _ H) in Hrun. injection Hrun as <- <-.
  idle_inst Hinst H.
Qed.

Lemma idle_installed_Detach σ σ' u r :
  idle_installed σ → natsLibev_Detach u σ = Some (r, σ') → idle_installed σ'.
Proof.
  intros Hinst Hrun. destruct u as [a|]; [|done].
  destruct (heap σ !! a) as [s|] eqn:H.
  2:{ destruct (idle_dangling_ub a true 0%N 0%N 0%Z σ H) as (_ & _ & E & _). congruence. }
  rewrite (idle_Detach_run _ _ _ H) in Hrun. injection Hrun as <- <-.
  intros a0 s0 H0. cbn in H0. apply lookup_delete_Some in H0 as [_ H0]. by eapply Hinst.
Qed.

Lemma idle_installed_Attach σ σ' u l c S r :
  idle_installed σ → natsLibev_Attach u l c S σ = Some (r, σ') → idle_installed σ'.
Proof.
  intros Hinst Hrun. destruct u as [a|].
  - destruct (heap σ !! a) as [s|] eqn:H.
    2:{ destruct (idle_dangling_ub a true l c S σ H) as (_ & _ & _ & E). congruence. }
    rewrite (idle_Attach_reconnect_run _ _ _ _ _ _ H) in Hrun. injection Hrun as <- <-.
    idle_inst Hinst H.
  - destruct (oracle σ) as [|[] o] eqn:Ho.
    2:{ rewrite (idle_Attach_first_run _ _ _ _ _ Ho) in Hrun. injection Hrun as <- <-.
        intros a0 s0 H0. cbn in H0.
        destruct (decide (a0 = fresh (dom (heap σ)))) as [->|].
        - rewrite lookup_insert_eq in H0. by injection H0 as <-.
        - rewrite lookup_insert_ne in H0 by done. by eapply Hinst. }
    all: rewrite idle_Attach_nomem_run in Hrun by (by rewrite Ho);
      injection Hrun as <- <-; exact Hinst.
Qed.

Lemma idle_installed_run ks : ∀ σ rs σ',
  idle_installed σ → run ks σ = Some (rs, σ') → idle_installed σ'.
Proof.
  induction ks as [|k ks IH]; intros σ rs σ' Hinst Hrun.
  - cbn in Hrun. by injection Hrun as <- <-.
  - apply idle_run_cons in Hrun as (r & σ0 & rs0 & Hk & Hks & _).
    eapply IH; [|exact Hks].
    destruct k as [u l c S|u b|u b|u]; cbn in Hk.
    + by eapply idle_installed_Attach.
    + unfold mbind, M_bind, mret, M_ret in Hk.
      destruct (natsLibev_Read u b σ) as [[r0 σ1]|] eqn:E; [|done].
      injection Hk as <- <-. by eapply idle_installed_Read.
    + unfold mbind, M_bind, mret, M_ret in Hk.
      destruct (natsLibev_Write u b σ) as [[r0 σ1]|] eqn:E; [|done].
      injection Hk as <- <-. by eapply idle_installed_Write.
    + unfold mbind, M_bind, mret, M_ret in Hk.
      destruct (natsLibev_Detach u σ) as [[r0 σ1]|] eqn:E; [|done].
      injection Hk as <- <-. by eapply idle_installed_Detach.
Qed.

(** ** Attach, toggles, detach: nothing is left behind *)

Lemma idle_attach_detach ts l c S o (σ : World natsLibevEvents) :
  wf σ → oracle σ = true :: o →
  ∃ a σ1 σ2 σ3,
    natsLibev_Attach None l c S σ = Some ((NATS_OK, Some a), σ1)
    ∧ do_toggles (Some a) ts σ1 = Some (map (λ _, NATS_OK) ts, σ2)
    ∧ natsLibev_Detach (Some a) σ2 = Some (NATS_OK, σ3)
    ∧ heap σ3 = heap σ ∧ registry σ3 = registry σ.
Proof.
  intros Hwf Ho.
  pose proof (idle_Attach_first_run l c S o σ Ho) as HA. cbn zeta in HA.
  set (a := fresh (dom (heap σ))) in *.
  assert (heap σ !! a = None) as Hfresh by apply fresh_heap_None.
  match type of HA with _ = Some (_, ?w) => set (σ1 := w) in * end.
  assert (wf σ1) as Hwf1 by (by eapply idle_wf_Attach).
  assert (is_Some (heap σ1 !! a)) as Hs1.
  { eexists. subst σ1. cbn. apply lookup_insert_eq. }
  destruct (idle_do_toggles_run ts σ1 a Hwf1 Hs1) as (σ2 & HT & Hwf2 & [s2 H2]).
  destruct (idle_Detach_clean a s2 σ2 Hwf2 H2) as (σ3 & HD & Hclean & Hgone & _).
  exists a, σ1, σ2, σ3. repeat split; try done.
  - apply map_eq. intros a'. destruct (decide (a' = a)) as [->|Hne]; [congruence|].
    rewrite (proj1 (idle_Detach_frame _ _ _ _ _ HD Hne)).
    rewrite (proj1 (idle_toggles_frame ts _ _ _ _ _ HT Hne)).
    refine (proj1 (idle_Attach_frame _ _ _ _ _ _ _ _ a' HA _)). congruence.
  - apply set_eq. intros [l' [a' m]]. destruct (decide (a' = a)) as [->|Hne].
    + split; [by intros ?%Hclean|].
      by intros ?%(wf_gen_fresh _ _ _ σ a l' m Hwf Hfresh).
    + rewrite (proj2 (idle_Detach_frame _ _ _ _ _ HD Hne)).
      rewrite (proj2 (idle_toggles_frame ts _ _ _ _ _ HT Hne)).
      refine (proj2 (idle_Attach_frame _ _ _ _ _ _ _ _ a' HA _) _ _). congruence.
Qed.

(** ** How calls compose *)

Lemma idle_reattach_last_wins a s l1 c1 S1 l2 c2 S2 (σ : World natsLibevEvents) :
  heap σ !! a = Some s →
  ∃ σ1 σ2 σ2',
    natsLibev_Attach (Some a) l1 c1 S1 σ = Some ((NATS_OK, Some a), σ1)
    ∧ natsLibev_Attach (Some a) l2 c2 S2 σ1 = Some ((NATS_OK, Some a), σ2)
    ∧ natsLibev_Attach (Some a) l2 c2 S2 σ = Some ((NATS_OK, Some a), σ2')
    ∧ heap σ2 = heap σ2' ∧ registry σ2 = registry σ2'.
Proof.
  intros H. eexists. eexists. eexists.
  split; [by apply idle_Attach_reconnect_run|].
  split; [apply idle_Attach_reconnect_run; cbn; apply lookup_insert_eq|].
  split; [by apply idle_Attach_reconnect_run|].
  cbn. rewrite insert_insert_eq. split; [done|].
  unfold rd, wr, ka. cbn.
  apply set_eq. intros x. destruct (decide (x = (loop s, (a, m_read)))) as [->|Hne].
  - rewrite !elem_of_union, !elem_of_singleton. tauto.
  - rewrite !elem_of_union, elem_of_difference, !elem_of_union, !elem_of_singleton.
    intuition congruence.
Qed.

Lemma idle_Read_Write_commute a s b1 b2 (σ : World natsLibevEvents) :
  heap σ !! a = Some s →
  ∃ σ1 σ2 σ1' σ2',
    natsLibev_Read (Some a) b1 σ = Some (NATS_OK, σ1)
    ∧ natsLibev_Write (Some a) b2 σ1 = Some (NATS_OK, σ2)
    ∧ natsLibev_Write (Some a) b2 σ = Some (NATS_OK, σ1')
    ∧ natsLibev_Read (Some a) b1 σ1' = Some (NATS_OK, σ2')
    ∧ heap σ2 = heap σ2' ∧ registry σ2 = registry σ2'.
Proof.
  intros H. eexists. eexists. eexists. eexists.
  split; [by apply idle_Read_run|].
  split; [apply idle_Write_run; cbn; apply lookup_insert_eq|].
  split; [by apply idle_Write_run|].
  split; [apply idle_Read_run; cbn; apply lookup_insert_eq|].
  cbn. rewrite !insert_insert_eq. split; [done|].
  unfold rd, wr. cbn.
  assert ((loop s, (a, m_read)) ≠ (loop s, (a, m_write))) as Hne by congruence.
  apply set_eq. intros x. unfold reg_toggle.
  destruct b1, b2, (io_active (read s)), (idle_active (write s));
    repeat first [ rewrite elem_of_union | rewrite elem_of_difference
                 | rewrite elem_of_singleton ];
    intuition congruence.
Qed.



(** ** What an attach can return *)



(** ** A handle that is null or was detached *)

Lemma idle_after_Detach a st (σ σ' : World natsLibevEvents) :
  natsLibev_Detach (Some a) σ = Some (st, σ') → heap σ' !! a = None.
Proof.
  intros Hrun. destruct (heap σ !! a) as [s|] eqn:H.
  2:{ destruct (idle_dangling_ub a true 0%N 0%N 0%Z σ H) as (_ & _ & E & _). congruence. }
  rewrite (idle_Detach_run _ _ _ H) in Hrun. injection Hrun as <- <-.
  cbn. apply lookup_delete_eq.
Qed.

End IdleMore.

Module IoMore.
Import Io IoFacts.

(** ** Runs *)

Lemma io_wf_do_call σ σ' k r : wf σ → do_call k σ = Some (r, σ') → wf σ'.
Proof.
  intros Hwf Hrun. destruct k as [u l c S|u b|u b|u]; cbn in Hrun.
  - destruct r. by eapply io_wf_Attach.
  - unfold mbind, M_bind, mret, M_ret in Hrun.
    destruct (natsLibev_Read u b σ) as [[r0 σ0]|] eqn:E; [|done].
    injection Hrun as <- <-. by eapply io_wf_Read.
  - unfold mbind, M_bind, mret, M_ret in Hrun.
    destruct (natsLibev_Write u b σ) as [[r0 σ0]|] eqn:E; [|done].
    injection Hrun as <- <-. by eapply io_wf_Write.
  - unfold mbind, M_bind, mret, M_ret in Hrun.
    destruct (natsLibev_Detach u σ) as [[r0 σ0]|] eqn:E; [|done].
    injection Hrun as <- <-. by eapply io_wf_Detach.
Qed.

Lemma io_run_cons k ks σ rs σ' :
  run (k :: ks) σ = Some (rs, σ') →
  ∃ r σ0 rs0, do_call k σ = Some (r, σ0) ∧ run ks σ0 = Some (rs0, σ') ∧ rs = r :: rs0.
Proof.
  cbn. unfold mbind, M_bind, mret, M_ret.
  destruct (do_call k σ) as [[r σ0]|]; [|done].
  destruct (run ks σ0) as [[rs0 σ1]|] eqn:E; [|done].
  intros ?; simplify_eq. by exists r, σ0, rs0.
Qed.

Lemma io_wf_run ks : ∀ σ rs σ', wf σ → run ks σ = Some (rs, σ') → wf σ'.
Proof.
  induction ks as [|k ks IH]; intros σ rs σ' Hwf Hrun.
  - cbn in Hrun. by injection Hrun as <- <-.
  - apply io_run_cons in Hrun as (r & σ0 & rs0 & Hk & Hks & _).
    eapply IH; [|exact Hks]. by eapply io_wf_do_call.
Qed.

(** ** Other records are left alone *)

Lemma io_Attach_frame σ σ' u l c S st u' a' :
  natsLibev_Attach u l c S σ = Some ((st, u'), σ') → u' ≠ Some a' →
  heap σ' !! a' = heap σ !! a'
  ∧ ∀ l' m, (l', (a', m)) ∈ registry σ' ↔ (l', (a', m)) ∈ registry σ.
Proof.
  intros Hrun Hne. destruct u as [a|].
  - destruct (heap σ !! a) as [s|] eqn:H.
    2:{ destruct (io_dangling_ub a true l c S σ H) as (_ & _ & _ & E). congruence. }
    rewrite (io_Attach_reconnect_run _ _ _ _ _ _ H) in Hrun.
    injection Hrun as <- <- <-. assert (a' ≠ a) as Hne' by congruence.
    split; cbn; [by rewrite lookup_insert_ne|].
    intros l' m. clear Hne. revert l' a' m Hne'. unfold rd, wr, ka. reg_other.
  - destruct (oracle σ) as [|[] o] eqn:Ho.
    2:{ rewrite (io_Attach_first_run _ _ _ _ _ Ho) in Hrun.
        injection Hrun as <- <- <-.
        assert (a' ≠ fresh (dom (heap σ))) as Hne' by congruence.
        split; cbn; [by rewrite lookup_insert_ne|].
        intros l' m. clear Hne. revert l' a' m Hne'. reg_other. }
    all: rewrite io_Attach_nomem_run in Hrun by (by rewrite Ho);
      by injection Hrun as <- <- <-.
Qed.

Lemma io_Detach_frame σ σ' a st a' :
  natsLibev_Detach (Some a) σ = Some (st, σ') → a' ≠ a →
  heap σ' !! a' = heap σ !! a'
  ∧ ∀ l' m, (l', (a', m)) ∈ registry σ' ↔ (l', (a', m)) ∈ registry σ.
Proof.
  intros Hrun Hne.
  destruct (heap σ !! a) as [s|] eqn:H.
  2:{ destruct (io_dangling_ub a true 0%N 0%N 0%Z σ H) as (_ & _ & E & _). congruence. }
  rewrite (io_Detach_run _ _ _ H) in Hrun. injection Hrun as <- <-.
  split; cbn; [by rewrite lookup_delete_ne|].
  intros l' m. revert l' a' m Hne. unfold rd, wr, ka. reg_other.
Qed.

Lemma io_toggle_frame σ σ' a t st a' :
  do_toggle (Some a) t σ = Some (st, σ') → a' ≠ a →
  heap σ' !! a' = heap σ !! a'
  ∧ ∀ l' m, (l', (a', m)) ∈ registry σ' ↔ (l', (a', m)) ∈ registry σ.
Proof.
  intros Hrun Hne.
  destruct (heap σ !! a) as [s|] eqn:H.
  2:{ destruct (io_dangling_ub a true 0%N 0%N 0%Z σ H) as (E1 & E2 & _).
      destruct t as [[]|[]]; cbn in Hrun;
        destruct (io_dangling_ub a false 0%N 0%N 0%Z σ H) as (E3 & E4 & _); congruence. }
  destruct t as [b|b]; cbn in Hrun.
  - rewrite (io_Read_run _ _ _ _ H) in Hrun. injection Hrun as <- <-.
    split; cbn; [by rewrite lookup_insert_ne|].
    intros l' m. revert l' a' m Hne. unfold rd, wr, ka. reg_other.
  - rewrite (io_Write_run _ _ _ _ H) in Hrun. injection Hrun as <- <-.
    split; cbn; [by rewrite lookup_insert_ne|].
    intros l' m. revert l' a' m Hne. unfold rd, wr, ka. reg_other.
Qed.

Lemma io_toggles_frame ts : ∀ σ σ' a rs a',
  do_toggles (Some a) ts σ = Some (rs, σ') → a' ≠ a →
  heap σ' !! a' = heap σ !! a'
  ∧ ∀ l' m, (l', (a', m)) ∈ registry σ' ↔ (l', (a', m)) ∈ registry σ.
Proof.
  induction ts as [|t ts IH]; intros σ σ' a rs a' Hrun Hne.
  - cbn in Hrun. by injection Hrun as <- <-.
  - cbn in Hrun. unfold mbind, M_bind, mret, M_ret in Hrun.
    destruct (do_toggle (Some a) t σ) as [[r σ0]|] eqn:Et; [|done].
    destruct (do_toggles (Some a) ts σ0) as [[rs0 σ1]|] eqn:Ets; [|done].
    injection Hrun as <- <-.
    destruct (io_toggle_frame _ _ _ _ _ _ Et Hne) as [Hh HR].
    destruct (IH _ _ _ _ _ Ets Hne) as [Hh' HR'].
    split; [congruence|]. intros l' m. by rewrite HR', HR.
Qed.

(** ** What the first attach installs stays *)

Ltac io_inst Hinst H :=
  let a0 := fresh in let s0 := fresh in let H0 := fresh in
  intros a0 s0 H0; cbn in H0;
  match type of H0 with
  | <[?a := _]> _ !! _ = _ =>
      destruct (decide (a0 = a)) as [->|];
      [ rewrite lookup_insert_eq in H0; injection H0 as <-;
        try (specialize (Hinst _ _ H)); cbn in *; tauto
      | rewrite lookup_insert_ne in H0 by done; by eapply Hinst ]
  end.

Lemma io_installed_Read σ σ' u b r :
  io_installed σ → natsLibev_Read u b σ = Some (r, σ') → io_installed σ'.
Proof.
  intros Hinst Hrun. destruct u as [a|]; [|done].
  destruct (heap σ !! a) as [s|] eqn:H.
  2:{ destruct (io_dangling_ub a b 0%N 0%N 0%Z σ H) as (E & _). congruence. }
  rewrite (io_Read_run _ _ _ _ H) in Hrun. injection Hrun as <- <-.
  io_inst Hinst H.
Qed.

Lemma io_installed_Write σ σ' u b r :
  io_installed σ → natsLibev_Write u b σ = Some (r, σ') → io_installed σ'.
Proof.
  intros Hinst Hrun. destruct u as [a|]; [|done].
  destruct (heap σ !! a) as [s|] eqn:H.
  2:{ destruct (io_dangling_ub a b 0%N 0%N 0%Z σ H) as (_ & E & _). congruence. }
  rewrite (io_Write_run _ _ _ _ H) in Hrun. injection Hrun as <- <-.
  io_inst Hinst H.
Qed.

Lemma io_installed_Detach σ σ' u r :
  io_installed σ → natsLibev_Detach u σ = Some (r, σ') → io_installed σ'.
Proof.
  intros Hinst Hrun. destruct u as [a|]; [|done].
  destruct (heap σ !! a) as [s|] eqn:H.
  2:{ destruct (io_dangling_ub a true 0%N 0%N 0%Z σ H) as (_ & _ & E & _). congruence. }
  rewrite (io_Detach_run _ _ _ H) in Hrun. injection Hrun as <- <-.
  intros a0 s0 H0. cbn in H0. apply lookup_delete_Some in H0 as [_ H0]. by eapply Hinst.
Qed.

Lemma io_installed_Attach σ σ' u l c S r :
  io_installed σ → natsLibev_Attach u l c S σ = Some (r, σ') → io_installed σ'.
Proof.
  intros Hinst Hrun. destruct u as [a|].
  - destruct (heap σ !! a) as [s|] eqn:H.
    2:{ destruct (io_dangling_ub a true l c S σ H) as (_ & _ & _ & E). congruence. }
    rewrite (io_Attach_reconnect_run _ _ _ _ _ _ H) in Hrun. injection Hrun as <- <-.
    io_inst Hinst H.
  - destruct (oracle σ) as [|[] o] eqn:Ho.
    2:{ rewrite (io_Attach_first_run _ _ _ _ _ Ho) in Hrun. injection Hrun as <- <-.
        intros a0 s0 H0. cbn in H0.
        destruct (decide (a0 = fresh (dom (heap σ)))) as [->|].
        - rewrite lookup_insert_eq in H0. by injection H0 as <-.
        - rewrite lookup_insert_ne in H0 by done. by eapply Hinst. }
    all: rewrite io_Attach_nomem_run in Hrun by (by rewrite Ho);
      injection Hrun as <- <-; exact Hinst.
Qed.

Lemma io_installed_run ks : ∀ σ rs σ',
  io_installed σ → run ks σ = Some (rs, σ') → io_installed σ'.
Proof.
  induction ks as [|k ks IH]; intros σ rs σ' Hinst Hrun.
  - cbn in Hrun. by injection Hrun as <- <-.
  - apply io_run_cons in Hrun as (r & σ0 & rs0 & Hk & Hks & _).
    eapply IH; [|exact Hks].
    destruct k as [u l c S|u b|u b|u]; cbn in Hk.
    + by eapply io_installed_Attach.
    + unfold mbind, M_bind, mret, M_ret in Hk.
      destruct (natsLibev_Read u b σ) as [[r0 σ1]|] eqn:E; [|done].
      injection Hk as <- <-. by eapply io_installed_Read.
    + unfold mbind, M_bind, mret, M_ret in Hk.
      destruct (natsLibev_Write u b σ) as [[r0 σ1]|] eqn:E; [|done].
      injection Hk as <- <-. by eapply io_installed_Write.
    + unfold mbind, M_bind, mret, M_ret in Hk.
      destruct (natsLibev_Detach u σ) as [[r0 σ1]|] eqn:E; [|done].
      injection Hk as <- <-. by eapply io_installed_Detach.
Qed.

(** ** Attach, toggles, detach: nothing is left behind *)

Lemma io_attach_detach ts l c S o (σ : World natsLibevEvents) :
  wf σ → oracle σ = true :: o →
  ∃ a σ1 σ2 σ3,
    natsLibev_Attach None l c S σ = Some ((NATS_OK, Some a), σ1)
    ∧ do_toggles (Some a) ts σ1 = Some (map (λ _, NATS_OK) ts, σ2)
    ∧ natsLibev_Detach (Some a) σ2 = Some (NATS_OK, σ3)
    ∧ heap σ3 = heap σ ∧ registry σ3 = registry σ.
Proof.
  intros Hwf Ho.
  pose proof (io_Attach_first_run l c S o σ Ho) as HA. cbn zeta in HA.
  set (a := fresh (dom (heap σ))) in *.
  assert (heap σ !! a = None) as Hfresh by apply fresh_heap_None.
  match type of HA with _ = Some (_, ?w) => set (σ1 := w) in * end.
  assert (wf σ1) as Hwf1 by (by eapply io_wf_Attach).
  assert (is_Some (heap σ1 !! a)) as Hs1.
  { eexists. subst σ1. cbn. apply lookup_insert_eq. }
  destruct (io_do_toggles_run ts σ1 a Hwf1 Hs1) as (σ2 & HT & Hwf2 & [s2 H2]).
  destruct (io_Detach_clean a s2 σ2 Hwf2 H2) as (σ3 & HD & Hclean & Hgone & _).
  exists a, σ1, σ2, σ3. repeat split; try done.
  - apply map_eq. intros a'. destruct (decide (a' = a)) as [->|Hne]; [congruence|].
    rewrite (proj1 (io_Detach_frame _ _ _ _ _ HD Hne)).
    rewrite (proj1 (io_toggles_frame ts _ _ _ _ _ HT Hne)).
    refine (proj1 (io_Attach_frame _ _ _ _ _ _ _ _ a' HA _)). congruence.
  - apply set_eq. intros [l' [a' m]]. destruct (decide (a' = a)) as [->|Hne].
    + split; [by intros ?%Hclean|].
      by intros ?%(wf_gen_fresh _ _ _ σ a l' m Hwf Hfresh).
    + rewrite (proj2 (io_Detach_frame _ _ _ _ _ HD Hne)).
      rewrite (proj2 (io_toggles_frame ts _ _ _ _ _ HT Hne)).
      refine (proj2 (io_Attach_frame _ _ _ _ _ _ _ _ a' HA _) _ _). congruence.
Qed.

(** ** How calls compose *)

Lemma io_reattach_last_wins a s l1 c1 S1 l2 c2 S2 (σ : World natsLibevEvents) :
  heap σ !! a = Some s →
  ∃ σ1 σ2 σ2',
    natsLibev_Attach (Some a) l1 c1 S1 σ = Some ((NATS_OK, Some a), σ1)
    ∧ natsLibev_Attach (Some a) l2 c2 S2 σ1 = Some ((NATS_OK, Some a), σ2)
    ∧ natsLibev_Attach (Some a) l2 c2 S2 σ = Some ((NATS_OK, Some a), σ2')
    ∧ heap σ2 = heap σ2' ∧ registry σ2 = registry σ2'.
Proof.
  intros H. eexists. eexists. eexists.
  split; [by apply io_Attach_reconnect_run|].
  split; [apply io_Attach_reconnect_run; cbn; apply lookup_insert_eq|].
  split; [by apply io_Attach_reconnect_run|].
  cbn. rewrite insert_insert_eq. split; [done|].
  unfold rd, wr, ka. cbn.
  apply set_eq. intros x. destruct (decide (x = (loop s, (a, m_read)))) as [->|Hne].
  - rewrite !elem_of_union, !elem_of_singleton. tauto.
  - rewrite !elem_of_union, elem_of_difference, !elem_of_union, !elem_of_singleton.
    intuition congruence.
Qed.

Lemma io_Read_Write_commute a s b1 b2 (σ : World natsLibevEvents) :
  heap σ !! a = Some s →
  ∃ σ1 σ2 σ1' σ2',
    natsLibev_Read (Some a) b1 σ = Some (NATS_OK, σ1)
    ∧ natsLibev_Write (Some a) b2 σ1 = Some (NATS_OK, σ2)
    ∧ natsLibev_Write (Some a) b2 σ = Some (NATS_OK, σ1')
    ∧ natsLibev_Read (Some a) b1 σ1' = Some (NATS_OK, σ2')
    ∧ heap σ2 = heap σ2' ∧ registry σ2 = registry σ2'.
Proof.
  intros H. eexists. eexists. eexists. eexists.
  split; [by apply io_Read_run|].
  split; [apply io_Write_run; cbn; apply lookup_insert_eq|].
  split; [by apply io_Write_run|].
  split; [apply io_Read_run; cbn; apply lookup_insert_eq|].
  cbn. rewrite !insert_insert_eq. split; [done|].
  unfold rd, wr. cbn.
  assert ((loop s, (a, m_read)) ≠ (loop s, (a, m_write))) as Hne by congruence.
  apply set_eq. intros x. unfold reg_toggle.
  destruct b1, b2, (io_active (read s)), (io_active (write s));
    repeat first [ rewrite elem_of_union | rewrite elem_of_difference
                 | rewrite elem_of_singleton ];
    intuition congruence.
Qed.



(** ** What an attach can return *)



(** ** A handle that is null or was detached *)

Lemma io_after_Detach a st (σ σ' : World natsLibevEvents) :
  natsLibev_Detach (Some a) σ = Some (st, σ') → heap σ' !! a = None.
Proof.
  intros Hrun. destruct (heap σ !! a) as [s|] eqn:H.
  2:{ destruct (io_dangling_ub a true 0%N 0%N 0%Z σ H) as (_ & _ & E & _). congruence. }
  rewrite (io_Detach_run _ _ _ H) in Hrun. injection Hrun as <- <-.
  cbn. apply lookup_delete_eq.
Qed.

End IoMore.

(** * The queue-group example *)

Module QueueGroupFacts.
Import QueueGroup.

Lemma int64_Some z : (INT64_MIN ≤ z ≤ INT64_MAX)%Z → int64 z = Some z.
Proof.
  intros [H1 H2]. unfold int64.
  destruct (Z.leb_spec INT64_MIN z), (Z.leb_spec z INT64_MAX); cbn; try done; lia.
Qed.

Lemma int64_inv z r : int64 z = Some r → r = z ∧ (INT64_MIN ≤ z ≤ INT64_MAX)%Z.
Proof.
  unfold int64.
  destruct (Z.leb_spec INT64_MIN z), (Z.leb_spec z INT64_MAX); cbn; try done.
  intros [= <-]. lia.
Qed.

(** What every call of the handler does. *)
Lemma onMsg_always nc sub msg cl σ σ' :
  onMsg nc sub msg cl σ = Some σ' →
  count σ' = (count σ + 1)%Z ∧ total σ' = total σ ∧ print σ' = print σ
  ∧ clock σ' = clock σ
  ∧ destroyed (outs σ') = destroyed (outs σ) ++ [msg]
  ∧ printed (outs σ') = printed (outs σ) ++ (if print σ then [msg] else []).
Proof.
  unfold onMsg. destruct σ as [c n st e p ck tk os]. cbn.
  destruct p; cbn; destruct (Z.eqb_spec st 0); cbn;
    (destruct (int64 (c + 1)) as [c'|] eqn:Hc; cbn; [|done]);
    apply int64_inv in Hc as [-> _];
    destruct (Z.eqb_spec (c + 1) n); cbn;
    try (match goal with |- context [int64 ?z] => destruct (int64 z); cbn; [|done] end);
    intros [= <-]; cbn;
    unfold destroyed, printed; rewrite ?omap_app; cbn; rewrite ?app_nil_r;
    repeat split; done.
Qed.

Lemma deliver_always nc sub msgs : ∀ σ σ',
  deliver nc sub msgs σ = Some σ' →
  count σ' = (count σ + Z.of_nat (length msgs))%Z
  ∧ total σ' = total σ ∧ print σ' = print σ ∧ clock σ' = clock σ
  ∧ destroyed (outs σ') = destroyed (outs σ) ++ msgs
  ∧ printed (outs σ') = printed (outs σ) ++ (if print σ then msgs else []).
Proof.
  induction msgs as [|m ms IH]; intros σ σ' H; cbn in H.
  - injection H as <-. rewrite !app_nil_r. repeat split; try done.
    + cbn. lia.
    + by destruct (print σ); rewrite ?app_nil_r.
  - destruct (onMsg nc sub m 0%N σ) as [σ1|] eqn:E1; cbn in H; [|done].
    apply onMsg_always in E1 as (Hc & Ht & Hp & Hk & Hd & Hpr).
    apply IH in H as (Hc' & Ht' & Hp' & Hk' & Hd' & Hpr').
    rewrite Hc', Hc, Ht', Ht, Hp', Hp, Hk', Hk, Hd', Hd, Hpr', Hpr, Hp.
    repeat split; try done.
    + cbn [length]. lia.
    + by rewrite <- app_assoc.
    + destruct (print σ); by rewrite <- app_assoc.
Qed.

(** A message that does not complete the count leaves the measurement
    alone, and reads the clock only if no start time was taken yet. *)
Lemma onMsg_not_last nc sub msg cl σ σ' :
  (count σ + 1)%Z ≠ total σ →
  onMsg nc sub msg cl σ = Some σ' →
  elapsed σ' = elapsed σ
  ∧ (start σ ≠ 0%Z → start σ' = start σ ∧ ticks σ' = ticks σ)
  ∧ (start σ = 0%Z → start σ' = clock σ (ticks σ) ∧ ticks σ' = S (ticks σ)).
Proof.
  unfold onMsg. destruct σ as [c n st e p ck tk os]. cbn. intros Hne.
  destruct p; cbn; destruct (Z.eqb_spec st 0); cbn;
    (destruct (int64 (c + 1)) as [c'|] eqn:Hc; cbn; [|done]);
    apply int64_inv in Hc as [-> _];
    (destruct (Z.eqb_spec (c + 1) n); [done|]); cbn;
    intros [= <-]; cbn; repeat split; done.
Qed.

Lemma onMsg_runs nc sub msg cl σ :
  (count σ + 1)%Z ≠ total σ →
  (INT64_MIN ≤ count σ + 1 ≤ INT64_MAX)%Z →
  is_Some (onMsg nc sub msg cl σ).
Proof.
  unfold onMsg. destruct σ as [c n st e p ck tk os]. cbn. intros Hne Hr.
  destruct p; cbn; destruct (Z.eqb_spec st 0); cbn;
    rewrite (int64_Some _ Hr); cbn;
    (destruct (Z.eqb_spec (c + 1) n); [done|]); cbn; by eexists.
Qed.

(** The message that completes the count. *)
Lemma onMsg_last nc sub msg cl σ :
  (count σ + 1)%Z = total σ →
  (INT64_MIN ≤ count σ + 1 ≤ INT64_MAX)%Z →
  start σ ≠ 0%Z →
  (INT64_MIN ≤ clock σ (ticks σ) - start σ ≤ INT64_MAX)%Z →
  ∃ σ', onMsg nc sub msg cl σ = Some σ'
        ∧ elapsed σ' = (clock σ (ticks σ) - start σ)%Z
        ∧ start σ' = start σ ∧ ticks σ' = S (ticks σ).
Proof.
  unfold onMsg. destruct σ as [c n st e p ck tk os]. cbn. intros He Hr Hs Hd.
  destruct p; cbn; (destruct (Z.eqb_spec st 0); [done|]); cbn;
    rewrite (int64_Some _ Hr); cbn;
    (destruct (Z.eqb_spec (c + 1) n); [|done]); cbn;
    rewrite (int64_Some _ Hd); cbn; by eexists.
Qed.

(** The only message, first and last at once. *)
Lemma onMsg_only nc sub msg cl σ :
  (count σ + 1)%Z = total σ →
  (INT64_MIN ≤ count σ + 1 ≤ INT64_MAX)%Z →
  start σ = 0%Z →
  (INT64_MIN ≤ clock σ (S (ticks σ)) - clock σ (ticks σ) ≤ INT64_MAX)%Z →
  ∃ σ', onMsg nc sub msg cl σ = Some σ'
        ∧ elapsed σ' = (clock σ (S (ticks σ)) - clock σ (ticks σ))%Z
        ∧ start σ' = clock σ (ticks σ) ∧ ticks σ' = S (S (ticks σ)).
Proof.
  unfold onMsg. destruct σ as [c n st e p ck tk os]. cbn. intros He Hr Hs Hd.
  destruct p; cbn; (destruct (Z.eqb_spec st 0); [|done]); cbn;
    rewrite (int64_Some _ Hr); cbn;
    (destruct (Z.eqb_spec (c + 1) n); [|done]); cbn;
    rewrite (int64_Some _ Hd); cbn; by eexists.
Qed.

(** Messages in the middle of the run: the start time is taken, the
    count stays below [total]. *)
Lemma deliver_middle nc sub msgs : ∀ σ,
  start σ ≠ 0%Z →
  (INT64_MIN ≤ count σ)%Z →
  (count σ + Z.of_nat (length msgs) < total σ)%Z →
  (total σ ≤ INT64_MAX)%Z →
  ∃ σ', deliver nc sub msgs σ = Some σ'
        ∧ elapsed σ' = elapsed σ ∧ start σ' = start σ ∧ ticks σ' = ticks σ.
Proof.
  induction msgs as [|m ms IH]; intros σ Hs Hlo Hlt Hmax; cbn.
  - by exists σ.
  - cbn [length] in Hlt.
    assert ((count σ + 1)%Z ≠ total σ) as Hne by lia.
    destruct (onMsg_runs nc sub m 0%N σ Hne) as [σ1 E1]; [lia|].
    rewrite E1. cbn.
    destruct (onMsg_not_last _ _ _ _ _ _ Hne E1) as (He & Hst & _).
    destruct (Hst Hs) as [Hs1 Ht1].
    apply onMsg_always in E1 as (Hc & Ht & _).
    destruct (IH σ1) as (σ' & Hrun & He' & Hs' & Ht'); [congruence|lia|lia|lia|].
    exists σ'. split; [done|]. repeat split; congruence.
Qed.

(** Once the count has reached [total], or when [total] is not positive,
    later messages do not touch the measurement. *)
Lemma deliver_late nc sub msgs : ∀ σ σ',
  (total σ ≤ count σ)%Z →
  deliver nc sub msgs σ = Some σ' →
  elapsed σ' = elapsed σ.
Proof.
  induction msgs as [|m ms IH]; intros σ σ' Hge H; cbn in H.
  - by injection H as <-.
  - destruct (onMsg nc sub m 0%N σ) as [σ1|] eqn:E1; cbn in H; [|done].
    assert ((count σ + 1)%Z ≠ total σ) as Hne by lia.
    destruct (onMsg_not_last _ _ _ _ _ _ Hne E1) as (He & _).
    apply onMsg_always in E1 as (Hc & Ht & _).
    rewrite <- He. apply IH; [lia|done].
Qed.

Lemma deliver_app nc sub l1 l2 σ :
  deliver nc sub (l1 ++ l2) σ = deliver nc sub l1 σ ≫= deliver nc sub l2.
Proof.
  revert σ. induction l1 as [|m l1 IH]; intros σ; cbn; [done|].
  destruct (onMsg nc sub m 0%N σ); cbn; [apply IH|done].
Qed.

(** A whole run of [total] messages. *)
Lemma deliver_measures nc sub msgs σ :
  count σ = 0%Z → start σ = 0%Z → total σ = Z.of_nat (length msgs) → msgs ≠ [] →
  (total σ ≤ INT64_MAX)%Z →
  clock σ (ticks σ) ≠ 0%Z →
  (INT64_MIN ≤ clock σ (S (ticks σ)) - clock σ (ticks σ) ≤ INT64_MAX)%Z →
  ∃ σ', deliver nc sub msgs σ = Some σ'
        ∧ count σ' = total σ
        ∧ start σ' = clock σ (ticks σ)
        ∧ elapsed σ' = (clock σ (S (ticks σ)) - clock σ (ticks σ))%Z
        ∧ ticks σ' = S (S (ticks σ)).
Proof.
  intros Hc Hs Ht Hne Hmax Ht0 Hd.
  assert (INT64_MIN ≤ 0)%Z as Hmin by (unfold INT64_MIN; lia).
  destruct msgs as [|m ms]; [done|]. clear Hne. cbn [length] in Ht.
  destruct ms as [|last mid _] using rev_ind.
  - cbn [length] in Ht.
    destruct (onMsg_only nc sub m 0%N σ) as (σ' & E & He & Hs' & Ht'); [lia|lia|done|done|].
    exists σ'. cbn. rewrite E. cbn. repeat split; try done.
    apply onMsg_always in E as (-> & _). lia.
  - rewrite length_app in Ht. cbn [length] in Ht.
    assert ((count σ + 1)%Z ≠ total σ) as Hn1 by lia.
    destruct (onMsg_runs nc sub m 0%N σ Hn1) as [σ1 E1]; [lia|].
    destruct (onMsg_not_last _ _ _ _ _ _ Hn1 E1) as (He1 & _ & Hfirst).
    destruct (Hfirst Hs) as [Hs1 Ht1].
    pose proof (onMsg_always _ _ _ _ _ _ E1) as (Hc1 & Htot1 & _ & Hk1 & _).
    destruct (deliver_middle nc sub mid σ1) as (σ2 & E2 & He2 & Hs2 & Ht2);
      [congruence|lia|lia|lia|].
    pose proof (deliver_always _ _ _ _ _ E2) as (Hc2 & Htot2 & _ & Hk2 & _).
    destruct (onMsg_last nc sub last 0%N σ2) as (σ3 & E3 & He3 & Hs3 & Ht3).
    { lia. } { lia. } { congruence. }
    { rewrite Hk2, Hk1, Ht2, Ht1, Hs2, Hs1. done. }
    exists σ3. split.
    { cbn. rewrite E1. cbn. rewrite deliver_app, E2. cbn. by rewrite E3. }
    pose proof (onMsg_always _ _ _ _ _ _ E3) as (Hc3 & _).
    repeat split.
    + lia.
    + congruence.
    + rewrite He3, Hk2, Hk1, Ht2, Ht1, Hs2, Hs1. done.
    + congruence.
Qed.

End QueueGroupFacts.

(** * Further properties, stated for both variants *)

Lemma idle_installed_empty o : idle_installed (empty_world o).
Proof. intros a s H. cbn in H. by rewrite lookup_empty in H. Qed.

Lemma io_installed_empty o : io_installed (empty_world o).
Proof. intros a s H. cbn in H. by rewrite lookup_empty in H. Qed.

(** X1: well-formedness is an invariant of the adapter. From a well-formed
    world (the empty world is one), whatever calls to [natsLibev_Attach],
    [natsLibev_Read], [natsLibev_Write] and [natsLibev_Detach] are made and
    whatever [malloc] answers, if the calls are defined the world they
    leave is well-formed: the reactor holds exactly the watchers whose
    [active] flag is set, each on the loop stored in its record, and the
    [data] of the read and write watchers point back to their record. *)
Theorem X1_well_formed_invariant :
  (∀ ks (σ σ' : World Idle.natsLibevEvents) rs,
     Idle.wf σ → Idle.run ks σ = Some (rs, σ') → Idle.wf σ')
  ∧ (∀ ks (σ σ' : World Io.natsLibevEvents) rs,
     Io.wf σ → Io.run ks σ = Some (rs, σ') → Io.wf σ').
Proof.
  split; intros ks σ σ' rs Hwf Hrun.
  - by eapply IdleMore.idle_wf_run.
  - by eapply IoMore.io_wf_run.
Qed.

(** X1 on the sample session, from the empty worlds. *)
Lemma X1_well_formed_invariant_witness :
  Idle.wf (after (Idle.run session) (empty_world [true]))
  ∧ Io.wf (after (Io.run session) (empty_world [true])).
Proof.
  split.
  - apply (proj1 X1_well_formed_invariant session (empty_world [true]) _
             (replicate 5 (NATS_OK, Some 1%positive)) (IdleFacts.idle_wf_empty _)).
    vm_compute. reflexivity.
  - apply (proj2 X1_well_formed_invariant session (empty_world [true]) _
             (replicate 5 (NATS_OK, Some 1%positive)) (IoFacts.io_wf_empty _)).
    vm_compute. reflexivity.
Defined.

(** X2: what the first attach installs stays until the detach. In every
    world reached by defined calls from a well-formed world in which it
    holds (the empty world is one), each allocated record has [keepActive]
    started and registered with the stored loop, with [keepAliveCb] as its
    callback, and its read and write watchers carry the dispatch callbacks
    given to [ev_init]. *)
Theorem X2_keepActive_stays_started :
  (∀ ks (σ σ' : World Idle.natsLibevEvents) rs,
     Idle.wf σ → idle_installed σ → Idle.run ks σ = Some (rs, σ') →
     idle_installed σ'
     ∧ ∀ a s, heap σ' !! a = Some s → (Idle.loop s, (a, m_keepActive)) ∈ registry σ')
  ∧ (∀ ks (σ σ' : World Io.natsLibevEvents) rs,
     Io.wf σ → io_installed σ → Io.run ks σ = Some (rs, σ') →
     io_installed σ'
     ∧ ∀ a s, heap σ' !! a = Some s → (Io.loop s, (a, m_keepActive)) ∈ registry σ').
Proof.
  split; intros ks σ σ' rs Hwf Hinst Hrun.
  - pose proof (IdleMore.idle_installed_run ks _ _ _ Hinst Hrun) as Hinst'.
    pose proof (IdleMore.idle_wf_run ks _ _ _ Hwf Hrun) as Hwf'.
    split; [done|]. intros a s H.
    apply (wf_gen_reg _ _ _ σ' a s _ _ Hwf' H). split; [done|].
    by destruct (Hinst' _ _ H) as (? & _).
  - pose proof (IoMore.io_installed_run ks _ _ _ Hinst Hrun) as Hinst'.
    pose proof (IoMore.io_wf_run ks _ _ _ Hwf Hrun) as Hwf'.
    split; [done|]. intros a s H.
    apply (wf_gen_reg _ _ _ σ' a s _ _ Hwf' H). split; [done|].
    by destruct (Hinst' _ _ H) as (? & _).
Qed.

(** X2 on two connections attached from the empty worlds. *)
Lemma X2_keepActive_stays_started_witness :
  (idle_installed idle_world_two
   ∧ ∀ a s, heap idle_world_two !! a = Some s →
            (Idle.loop s, (a, m_keepActive)) ∈ registry idle_world_two)
  ∧ (io_installed io_world_two
     ∧ ∀ a s, heap io_world_two !! a = Some s →
              (Io.loop s, (a, m_keepActive)) ∈ registry io_world_two).
Proof.
  split.
  - apply (proj1 X2_keepActive_stays_started two_attaches (empty_world [true; true]) _
             [(NATS_OK, Some 1%positive); (NATS_OK, Some 2%positive)]
             (IdleFacts.idle_wf_empty _) (idle_installed_empty _)).
    vm_compute. reflexivity.
  - apply (proj2 X2_keepActive_stays_started two_attaches (empty_world [true; true]) _
             [(NATS_OK, Some 1%positive); (NATS_OK, Some 2%positive)]
             (IoFacts.io_wf_empty _) (io_installed_empty _)).
    vm_compute. reflexivity.
Defined.

(** X3: no entry point checks its handle. After a [natsLibev_Detach] that
    returned, every further call on the detached handle (a toggle, a second
    detach, a reconnect, a dispatch on one of its watchers) dereferences the
    freed record and is undefined; so are [natsLibev_Read],
    [natsLibev_Write] and [natsLibev_Detach] on a null handle. *)
Theorem X3_detached_or_null_handle :
  (∀ (σ σ' : World Idle.natsLibevEvents) a st,
     Idle.natsLibev_Detach (Some a) σ = Some (st, σ') →
     (∀ b, Idle.natsLibev_Read (Some a) b σ' = None
           ∧ Idle.natsLibev_Write (Some a) b σ' = None)
     ∧ Idle.natsLibev_Detach (Some a) σ' = None
     ∧ (∀ l c S, Idle.natsLibev_Attach (Some a) l c S σ' = None)
     ∧ (∀ l revents,
          Idle.natsLibev_ProcessReadEvent l (a, Idle.read_) revents σ' = None
          ∧ Idle.natsLibev_ProcessWriteEvent l (a, Idle.write_) revents σ' = None))
  ∧ (∀ (σ : World Idle.natsLibevEvents) b,
       Idle.natsLibev_Read None b σ = None ∧ Idle.natsLibev_Write None b σ = None
       ∧ Idle.natsLibev_Detach None σ = None)
  ∧ (∀ (σ σ' : World Io.natsLibevEvents) a st,
     Io.natsLibev_Detach (Some a) σ = Some (st, σ') →
     (∀ b, Io.natsLibev_Read (Some a) b σ' = None
           ∧ Io.natsLibev_Write (Some a) b σ' = None)
     ∧ Io.natsLibev_Detach (Some a) σ' = None
     ∧ (∀ l c S, Io.natsLibev_Attach (Some a) l c S σ' = None)
     ∧ (∀ l revents,
          Io.natsLibev_ProcessEvent l (a, Io.read_) revents σ' = None
          ∧ Io.natsLibev_ProcessEvent l (a, Io.write_) revents σ' = None))
  ∧ (∀ (σ : World Io.natsLibevEvents) b,
       Io.natsLibev_Read None b σ = None ∧ Io.natsLibev_Write None b σ = None
       ∧ Io.natsLibev_Detach None σ = None).
Proof.
  split; [|split; [|split]].
  - intros σ σ' a st Hrun.
    pose proof (IdleMore.idle_after_Detach _ _ _ _ Hrun) as H.
    repeat split.
    + by destruct (IdleFacts.idle_dangling_ub a b 0%N 0%N 0%Z σ' H) as (? & _).
    + by destruct (IdleFacts.idle_dangling_ub a b 0%N 0%N 0%Z σ' H) as (_ & ? & _).
    + by destruct (IdleFacts.idle_dangling_ub a true 0%N 0%N 0%Z σ' H) as (_ & _ & ? & _).
    + intros l c S.
      by destruct (IdleFacts.idle_dangling_ub a true l c S σ' H) as (_ & _ & _ & ?).
    + unfold Idle.natsLibev_ProcessReadEvent. unfold_monad. cbn. by rewrite H.
    + unfold Idle.natsLibev_ProcessWriteEvent. unfold_monad. cbn. by rewrite H.
  - intros σ b. apply IdleFacts.idle_null_ub.
  - intros σ σ' a st Hrun.
    pose proof (IoMore.io_after_Detach _ _ _ _ Hrun) as H.
    repeat split.
    + by destruct (IoFacts.io_dangling_ub a b 0%N 0%N 0%Z σ' H) as (? & _).
    + by destruct (IoFacts.io_dangling_ub a b 0%N 0%N 0%Z σ' H) as (_ & ? & _).
    + by destruct (IoFacts.io_dangling_ub a true 0%N 0%N 0%Z σ' H) as (_ & _ & ? & _).
    + intros l c S.
      by destruct (IoFacts.io_dangling_ub a true l c S σ' H) as (_ & _ & _ & ?).
    + unfold Io.natsLibev_ProcessEvent. unfold_monad. cbn. by rewrite H.
    + unfold Io.natsLibev_ProcessEvent. unfold_monad. cbn. by rewrite H.
  - intros σ b. apply IoFacts.io_null_ub.
Qed.

(** X3 on the sample worlds: a second detach. *)
Lemma X3_detached_or_null_handle_witness :
  Idle.natsLibev_Detach (Some 1%positive)
    (after (Idle.natsLibev_Detach (Some 1%positive)) idle_world1) = None
  ∧ Io.natsLibev_Detach (Some 1%positive)
      (after (Io.natsLibev_Detach (Some 1%positive)) io_world1) = None.
Proof.
  split.
  - refine (proj1 (proj2 (proj1 X3_detached_or_null_handle idle_world1 _ 1%positive
                            NATS_OK _))).
    vm_compute. reflexivity.
  - refine (proj1 (proj2 (proj1 (proj2 (proj2 X3_detached_or_null_handle)) io_world1 _
                            1%positive NATS_OK _))).
    vm_compute. reflexivity.
Defined.

(** X4: connections do not interfere. A [natsLibev_Attach] changes no
    record other than the one whose handle it leaves in [userData], and no
    registration of another record's watchers; a [natsLibev_Detach]
    changes no record and no registration other than those of the record it
    frees. *)
Theorem X4_other_connections_untouched :
  (∀ (σ σ' : World Idle.natsLibevEvents) u l c S st u' a',
     Idle.natsLibev_Attach u l c S σ = Some ((st, u'), σ') → u' ≠ Some a' →
     heap σ' !! a' = heap σ !! a'
     ∧ ∀ l' m, (l', (a', m)) ∈ registry σ' ↔ (l', (a', m)) ∈ registry σ)
  ∧ (∀ (σ σ' : World Idle.natsLibevEvents) a st a',
     Idle.natsLibev_Detach (Some a) σ = Some (st, σ') → a' ≠ a →
     heap σ' !! a' = heap σ !! a'
     ∧ ∀ l' m, (l', (a', m)) ∈ registry σ' ↔ (l', (a', m)) ∈ registry σ)
  ∧ (∀ (σ σ' : World Io.natsLibevEvents) u l c S st u' a',
     Io.natsLibev_Attach u l c S σ = Some ((st, u'), σ') → u' ≠ Some a' →
     heap σ' !! a' = heap σ !! a'
     ∧ ∀ l' m, (l', (a', m)) ∈ registry σ' ↔ (l', (a', m)) ∈ registry σ)
  ∧ (∀ (σ σ' : World Io.natsLibevEvents) a st a',
     Io.natsLibev_Detach (Some a) σ = Some (st, σ') → a' ≠ a →
     heap σ' !! a' = heap σ !! a'
     ∧ ∀ l' m, (l', (a', m)) ∈ registry σ' ↔ (l', (a', m)) ∈ registry σ).
Proof.
  split; [|split; [|split]].
  - intros σ σ' u l c S st u' a'. apply IdleMore.idle_Attach_frame.
  - intros σ σ' a st a'. apply IdleMore.idle_Detach_frame.
  - intros σ σ' u l c S st u' a'. apply IoMore.io_Attach_frame.
  - intros σ σ' a st a'. apply IoMore.io_Detach_frame.
Qed.

(** X4 with two connections: detaching the second leaves the first. *)
Lemma X4_other_connections_untouched_witness :
  (heap (after (Idle.natsLibev_Detach (Some 2%positive)) idle_world_two) !! 1%positive
     = heap idle_world_two !! 1%positive
   ∧ ∀ l' m,
       (l', (1%positive, m))
         ∈ registry (after (Idle.natsLibev_Detach (Some 2%positive)) idle_world_two)
       ↔ (l', (1%positive, m)) ∈ registry idle_world_two)
  ∧ (heap (after (Io.natsLibev_Attach (Some 2%positive) 7%N 11%N 6%Z) io_world_two)
       !! 1%positive
     = heap io_world_two !! 1%positive
     ∧ ∀ l' m,
         (l', (1%positive, m))
           ∈ registry (after (Io.natsLibev_Attach (Some 2%positive) 7%N 11%N 6%Z)
                             io_world_two)
         ↔ (l', (1%positive, m)) ∈ registry io_world_two).
Proof.
  split.
  - apply (proj1 (proj2 X4_other_connections_untouched) idle_world_two _ 2%positive
             NATS_OK 1%positive); [vm_compute; reflexivity|done].
  - apply (proj1 (proj2 (proj2 X4_other_connections_untouched)) io_world_two _
             (Some 2%positive) 7%N 11%N 6%Z NATS_OK (Some 2%positive) 1%positive);
      [vm_compute; reflexivity|done].
Defined.

(** X5: an attach, any toggles and a detach leave nothing behind. From a
    well-formed world in which [malloc] succeeds, a first
    [natsLibev_Attach], any list of [natsLibev_Read]/[natsLibev_Write]
    toggles on the handle it returned and [natsLibev_Detach] all return
    [NATS_OK], and the allocated records and the reactor's registrations
    are again exactly what they were before the attach. *)
Theorem X5_attach_detach_round_trip :
  (∀ (σ : World Idle.natsLibevEvents) ts l c S o, Idle.wf σ → oracle σ = true :: o →
     ∃ a σ1 σ2 σ3,
       Idle.natsLibev_Attach None l c S σ = Some ((NATS_OK, Some a), σ1)
       ∧ Idle.do_toggles (Some a) ts σ1 = Some (map (λ _, NATS_OK) ts, σ2)
       ∧ Idle.natsLibev_Detach (Some a) σ2 = Some (NATS_OK, σ3)
       ∧ heap σ3 = heap σ ∧ registry σ3 = registry σ)
  ∧ (∀ (σ : World Io.natsLibevEvents) ts l c S o, Io.wf σ → oracle σ = true :: o →
     ∃ a σ1 σ2 σ3,
       Io.natsLibev_Attach None l c S σ = Some ((NATS_OK, Some a), σ1)
       ∧ Io.do_toggles (Some a) ts σ1 = Some (map (λ _, NATS_OK) ts, σ2)
       ∧ Io.natsLibev_Detach (Some a) σ2 = Some (NATS_OK, σ3)
       ∧ heap σ3 = heap σ ∧ registry σ3 = registry σ).
Proof.
  split; intros σ ts l c S o Hwf Ho.
  - by apply (IdleMore.idle_attach_detach ts l c S o).
  - by apply (IoMore.io_attach_detach ts l c S o).
Qed.

(** X5 from the empty worlds, with two toggles in between. *)
Lemma X5_attach_detach_round_trip_witness :
  (∃ a σ1 σ2 σ3,
     Idle.natsLibev_Attach None 7%N 9%N 5%Z (empty_world [true])
       = Some ((NATS_OK, Some a), σ1)
     ∧ Idle.do_toggles (Some a) [T_Write true; T_Read false] σ1
       = Some ([NATS_OK; NATS_OK], σ2)
     ∧ Idle.natsLibev_Detach (Some a) σ2 = Some (NATS_OK, σ3)
     ∧ heap σ3 = ∅ ∧ registry σ3 = ∅)
  ∧ (∃ a σ1 σ2 σ3,
     Io.natsLibev_Attach None 7%N 9%N 5%Z (empty_world [true])
       = Some ((NATS_OK, Some a), σ1)
     ∧ Io.do_toggles (Some a) [T_Write true; T_Read false] σ1
       = Some ([NATS_OK; NATS_OK], σ2)
     ∧ Io.natsLibev_Detach (Some a) σ2 = Some (NATS_OK, σ3)
     ∧ heap σ3 = ∅ ∧ registry σ3 = ∅).
Proof.
  split.
  - exact (proj1 X5_attach_detach_round_trip (empty_world [true])
             [T_Write true; T_Read false] 7%N 9%N 5%Z [] (IdleFacts.idle_wf_empty _)
             eq_refl).
  - exact (proj2 X5_attach_detach_round_trip (empty_world [true])
             [T_Write true; T_Read false] 7%N 9%N 5%Z [] (IoFacts.io_wf_empty _)
             eq_refl).
Defined.

(** X6: the last reconnect wins. On an allocated record, a reconnect on
    socket [S1] followed by a reconnect on socket [S2] leaves the records
    and the reactor's registrations exactly as the reconnect on [S2] alone
    does; in particular a reconnect repeated on the same socket changes
    nothing more. *)
Theorem X6_last_reconnect_wins :
  (∀ (σ : World Idle.natsLibevEvents) a s l1 c1 S1 l2 c2 S2, heap σ !! a = Some s →
     ∃ σ1 σ2 σ2',
       Idle.natsLibev_Attach (Some a) l1 c1 S1 σ = Some ((NATS_OK, Some a), σ1)
       ∧ Idle.natsLibev_Attach (Some a) l2 c2 S2 σ1 = Some ((NATS_OK, Some a), σ2)
       ∧ Idle.natsLibev_Attach (Some a) l2 c2 S2 σ = Some ((NATS_OK, Some a), σ2')
       ∧ heap σ2 = heap σ2' ∧ registry σ2 = registry σ2')
  ∧ (∀ (σ : World Io.natsLibevEvents) a s l1 c1 S1 l2 c2 S2, heap σ !! a = Some s →
     ∃ σ1 σ2 σ2',
       Io.natsLibev_Attach (Some a) l1 c1 S1 σ = Some ((NATS_OK, Some a), σ1)
       ∧ Io.natsLibev_Attach (Some a) l2 c2 S2 σ1 = Some ((NATS_OK, Some a), σ2)
       ∧ Io.natsLibev_Attach (Some a) l2 c2 S2 σ = Some ((NATS_OK, Some a), σ2')
       ∧ heap σ2 = heap σ2' ∧ registry σ2 = registry σ2').
Proof.
  split; intros σ a s l1 c1 S1 l2 c2 S2 H.
  - by apply (IdleMore.idle_reattach_last_wins a s).
  - by apply (IoMore.io_reattach_last_wins a s).
Qed.

(** X6 on the sample worlds: sockets [6] then [8]. *)
Lemma X6_last_reconnect_wins_witness :
  (∃ σ1 σ2 σ2',
     Idle.natsLibev_Attach (Some 1%positive) 7%N 9%N 6%Z idle_world1
       = Some ((NATS_OK, Some 1%positive), σ1)
     ∧ Idle.natsLibev_Attach (Some 1%positive) 7%N 9%N 8%Z σ1
       = Some ((NATS_OK, Some 1%positive), σ2)
     ∧ Idle.natsLibev_Attach (Some 1%positive) 7%N 9%N 8%Z idle_world1
       = Some ((NATS_OK, Some 1%positive), σ2')
     ∧ heap σ2 = heap σ2' ∧ registry σ2 = registry σ2')
  ∧ (∃ σ1 σ2 σ2',
     Io.natsLibev_Attach (Some 1%positive) 7%N 9%N 6%Z io_world1
       = Some ((NATS_OK, Some 1%positive), σ1)
     ∧ Io.natsLibev_Attach (Some 1%positive) 7%N 9%N 8%Z σ1
       = Some ((NATS_OK, Some 1%positive), σ2)
     ∧ Io.natsLibev_Attach (Some 1%positive) 7%N 9%N 8%Z io_world1
       = Some ((NATS_OK, Some 1%positive), σ2')
     ∧ heap σ2 = heap σ2' ∧ registry σ2 = registry σ2').
Proof.
  split.
  - exact (proj1 X6_last_reconnect_wins idle_world1 1%positive _ 7%N 9%N 6%Z 7%N 9%N 8%Z
             idle_world1_heap).
  - exact (proj2 X6_last_reconnect_wins io_world1 1%positive _ 7%N 9%N 6%Z 7%N 9%N 8%Z
             io_world1_heap).
Defined.

(** X7: read interest and write interest are independent. On an allocated
    record, [natsLibev_Read (b1)] followed by [natsLibev_Write (b2)] leaves
    the records and the reactor's registrations exactly as
    [natsLibev_Write (b2)] followed by [natsLibev_Read (b1)] does. *)
Theorem X7_read_write_commute :
  (∀ (σ : World Idle.natsLibevEvents) a s b1 b2, heap σ !! a = Some s →
     ∃ σ1 σ2 σ1' σ2',
       Idle.natsLibev_Read (Some a) b1 σ = Some (NATS_OK, σ1)
       ∧ Idle.natsLibev_Write (Some a) b2 σ1 = Some (NATS_OK, σ2)
       ∧ Idle.natsLibev_Write (Some a) b2 σ = Some (NATS_OK, σ1')
       ∧ Idle.natsLibev_Read (Some a) b1 σ1' = Some (NATS_OK, σ2')
       ∧ heap σ2 = heap σ2' ∧ registry σ2 = registry σ2')
  ∧ (∀ (σ : World Io.natsLibevEvents) a s b1 b2, heap σ !! a = Some s →
     ∃ σ1 σ2 σ1' σ2',
       Io.natsLibev_Read (Some a) b1 σ = Some (NATS_OK, σ1)
       ∧ Io.natsLibev_Write (Some a) b2 σ1 = Some (NATS_OK, σ2)
       ∧ Io.natsLibev_Write (Some a) b2 σ = Some (NATS_OK, σ1')
       ∧ Io.natsLibev_Read (Some a) b1 σ1' = Some (NATS_OK, σ2')
       ∧ heap σ2 = heap σ2' ∧ registry σ2 = registry σ2').
Proof.
  split; intros σ a s b1 b2 H.
  - by apply (IdleMore.idle_Read_Write_commute a s).
  - by apply (IoMore.io_Read_Write_commute a s).
Qed.

(** X7 on the sample worlds: stop reading, start writing. *)
Lemma X7_read_write_commute_witness :
  (∃ σ1 σ2 σ1' σ2',
     Idle.natsLibev_Read (Some 1%positive) false idle_world1 = Some (NATS_OK, σ1)
     ∧ Idle.natsLibev_Write (Some 1%positive) true σ1 = Some (NATS_OK, σ2)
     ∧ Idle.natsLibev_Write (Some 1%positive) true idle_world1 = Some (NATS_OK, σ1')
     ∧ Idle.natsLibev_Read (Some 1%positive) false σ1' = Some (NATS_OK, σ2')
     ∧ heap σ2 = heap σ2' ∧ registry σ2 = registry σ2')
  ∧ (∃ σ1 σ2 σ1' σ2',
     Io.natsLibev_Read (Some 1%positive) false io_world1 = Some (NATS_OK, σ1)
     ∧ Io.natsLibev_Write (Some 1%positive) true σ1 = Some (NATS_OK, σ2)
     ∧ Io.natsLibev_Write (Some 1%positive) true io_world1 = Some (NATS_OK, σ1')
     ∧ Io.natsLibev_Read (Some 1%positive) false σ1' = Some (NATS_OK, σ2')
     ∧ heap σ2 = heap σ2' ∧ registry σ2 = registry σ2').
Proof.
  split.
  - exact (proj1 X7_read_write_commute idle_world1 1%positive _ false true
             idle_world1_heap).
  - exact (proj2 X7_read_write_commute io_world1 1%positive _ false true io_world1_heap).
Defined.





(** * The queue-group example: what the handler computes *)

(** X10: the handler measures the run. Started with [count], [start] at
    zero and [total] equal to the number of messages delivered (at least
    one), with a clock whose first reading is not zero and whose first two
    readings differ by a 64-bit amount, [onMsg] handles all the messages,
    reads the clock exactly twice (at the first message and at the
    [total]-th), and leaves [count = total], [start] at the first reading
    and [elapsed] at the second reading minus the first. *)
Theorem X10_onMsg_measures_elapsed (nc : natsConnection) (sub : QueueGroup.natsSubscription)
    (msgs : list QueueGroup.natsMsg) (σ : QueueGroup.state) :
  QueueGroup.count σ = 0%Z → QueueGroup.start σ = 0%Z →
  QueueGroup.total σ = Z.of_nat (length msgs) → msgs ≠ [] →
  (QueueGroup.total σ ≤ QueueGroup.INT64_MAX)%Z →
  QueueGroup.clock σ (QueueGroup.ticks σ) ≠ 0%Z →
  (QueueGroup.INT64_MIN
     ≤ QueueGroup.clock σ (S (QueueGroup.ticks σ)) - QueueGroup.clock σ (QueueGroup.ticks σ)
     ≤ QueueGroup.INT64_MAX)%Z →
  ∃ σ', QueueGroup.deliver nc sub msgs σ = Some σ'
        ∧ QueueGroup.count σ' = QueueGroup.total σ
        ∧ QueueGroup.start σ' = QueueGroup.clock σ (QueueGroup.ticks σ)
        ∧ QueueGroup.elapsed σ'
          = (QueueGroup.clock σ (S (QueueGroup.ticks σ))
             - QueueGroup.clock σ (QueueGroup.ticks σ))%Z
        ∧ QueueGroup.ticks σ' = S (S (QueueGroup.ticks σ)).
Proof. apply QueueGroupFacts.deliver_measures. Qed.

(** X10 for three messages and the sample clock: 250 elapsed. *)
Lemma X10_onMsg_measures_elapsed_witness :
  ∃ σ', QueueGroup.deliver 9%N 1%N [10%N; 11%N; 12%N]
          (QueueGroup.initial 3 false sample_clock) = Some σ'
        ∧ QueueGroup.count σ' = 3%Z
        ∧ QueueGroup.start σ' = 1000%Z
        ∧ QueueGroup.elapsed σ' = 250%Z
        ∧ QueueGroup.ticks σ' = 2%nat.
Proof.
  apply (X10_onMsg_measures_elapsed 9%N 1%N [10%N; 11%N; 12%N]
           (QueueGroup.initial 3 false sample_clock)); try reflexivity; done.
Defined.

(** X11: nothing overwrites the measurement. Once [count] has reached
    [total] (and from the start when [total] is zero or negative, as after
    a count argument that [atol] reads as 0), whatever further messages
    [onMsg] handles, [elapsed] keeps its value. *)
Theorem X11_onMsg_late_messages (nc : natsConnection) (sub : QueueGroup.natsSubscription)
    (msgs : list QueueGroup.natsMsg) (σ σ' : QueueGroup.state) :
  (QueueGroup.total σ ≤ QueueGroup.count σ)%Z →
  QueueGroup.deliver nc sub msgs σ = Some σ' →
  QueueGroup.elapsed σ' = QueueGroup.elapsed σ.
Proof. apply QueueGroupFacts.deliver_late. Qed.

(** X11 with [total = 0]: two messages, [elapsed] still zero. *)
Lemma X11_onMsg_late_messages_witness :
  QueueGroup.elapsed
    (default (QueueGroup.initial 0 true sample_clock)
       (QueueGroup.deliver 9%N 1%N [10%N; 11%N] (QueueGroup.initial 0 true sample_clock)))
  = 0%Z.
Proof.
  refine (X11_onMsg_late_messages 9%N 1%N [10%N; 11%N]
            (QueueGroup.initial 0 true sample_clock) _ _ _).
  - cbn. lia.
  - vm_compute. reflexivity.
Defined.

(** X12: every message is accounted for. Whatever the state, if [onMsg]
    handles a list of messages then [count] has grown by their number,
    each of them has been destroyed exactly once, in the order of
    delivery, each has been printed exactly once if [print] is set and
    none otherwise, and [total], [print] and the clock are unchanged. *)
Theorem X12_onMsg_accounts_for_messages (nc : natsConnection)
    (sub : QueueGroup.natsSubscription) (msgs : list QueueGroup.natsMsg)
    (σ σ' : QueueGroup.state) :
  QueueGroup.deliver nc sub msgs σ = Some σ' →
  QueueGroup.count σ' = (QueueGroup.count σ + Z.of_nat (length msgs))%Z
  ∧ QueueGroup.total σ' = QueueGroup.total σ
  ∧ QueueGroup.print σ' = QueueGroup.print σ
  ∧ QueueGroup.clock σ' = QueueGroup.clock σ
  ∧ QueueGroup.destroyed (QueueGroup.outs σ')
    = QueueGroup.destroyed (QueueGroup.outs σ) ++ msgs
  ∧ QueueGroup.printed (QueueGroup.outs σ')
    = QueueGroup.printed (QueueGroup.outs σ) ++ (if QueueGroup.print σ then msgs else []).
Proof. apply QueueGroupFacts.deliver_always. Qed.

(** X12 for two printed messages. *)
Lemma X12_onMsg_accounts_for_messages_witness :
  ∃ σ', QueueGroup.deliver 9%N 1%N [10%N; 11%N] (QueueGroup.initial 5 true sample_clock)
          = Some σ'
        ∧ QueueGroup.count σ' = 2%Z
        ∧ QueueGroup.destroyed (QueueGroup.outs σ') = [10%N; 11%N]
        ∧ QueueGroup.printed (QueueGroup.outs σ') = [10%N; 11%N].
Proof.
  eexists. split; [vm_compute; reflexivity|].
  match goal with
  | |- context [QueueGroup.count ?s] =>
      pose proof (X12_onMsg_accounts_for_messages 9%N 1%N [10%N; 11%N]
                    (QueueGroup.initial 5 true sample_clock) s) as H
  end.
  destruct H as (Hc & _ & _ & _ & Hd & Hp); [vm_compute; reflexivity|].
  rewrite Hc, Hd, Hp. done.
Defined.
